(** * A shallow embedding of [src/validator.js]

    The validator keeps, per instance, a locale, a field-to-chain mapping and
    an error bag; the rule registry [Rules] and the message catalog
    [Messages] are module-level objects shared by every instance.  JavaScript
    objects used as dictionaries are finite maps, arrays are lists, and the
    methods that mutate [this] are state transformers that may throw. *)

From Stdlib Require Import ZArith String Ascii.
From stdpp Require Import base option list gmap strings.

Local Open Scope string_scope.
Local Open Scope list_scope.
Local Open Scope Z_scope.

(** ** Strings: [indexOf] and [split] with a one-character separator *)

Module Str.

(** [s.indexOf(c)]: position of the first occurrence, or [-1]. *)
Fixpoint indexOf (c : ascii) (s : string) : Z :=
  match s with
  | EmptyString => -1
  | String d s' =>
      if Ascii.eqb d c then 0
      else let i := indexOf c s' in
           if i =? -1 then -1 else i + 1
  end.

(** [s.split(c)]: every occurrence of [c] ends a piece; the result always has
    at least one piece, and the pieces never contain [c]. *)
Fixpoint split (c : ascii) (s : string) : list string :=
  match s with
  | EmptyString => [EmptyString]
  | String d s' =>
      if Ascii.eqb d c then EmptyString :: split c s'
      else match split c s' with
           | [] => [String d EmptyString]
           | w :: ws => String d w :: ws
           end
  end.

(** The text before the first [c] (the whole string when there is none). *)
Fixpoint before (c : ascii) (s : string) : string :=
  match s with
  | EmptyString => EmptyString
  | String d s' => if Ascii.eqb d c then EmptyString else String d (before c s')
  end.

(** The text after the first [c] (empty when there is none). *)
Fixpoint after (c : ascii) (s : string) : string :=
  match s with
  | EmptyString => EmptyString
  | String d s' => if Ascii.eqb d c then s' else after c s'
  end.

(** [c] does not occur in [s]. *)
Fixpoint free (c : ascii) (s : string) : bool :=
  match s with
  | EmptyString => true
  | String d s' => negb (Ascii.eqb d c) && free c s'
  end.

End Str.

(** ** Rule specs and the rule-chain parser *)

(** [{name, params}]; [params] is [null] or an array of raw strings. *)
Module RuleSpec.
Record t := make {
  name : string;
  params : option (list string)
}.
End RuleSpec.

(** [a[i]] on an array of strings, for an index the caller knows to be in
    range (see [split_second_piece]). *)
Definition item (a : list string) (i : nat) : string := nth i a EmptyString.

(** [normalizeRule(rule)], lines 232-242.  [~rule.indexOf(':')] is the bitwise
    complement, zero (falsy) exactly for [-1]. *)
Definition normalizeRule (rule : string) : RuleSpec.t :=
  let params :=
    if Z.lnot (Str.indexOf ":" rule) =? 0 then None
    else Some (Str.split "," (item (Str.split ":" rule) 1)) in
  {| RuleSpec.name := item (Str.split ":" rule) 0; RuleSpec.params := params |}.

(** ** JavaScript values, exceptions and computations *)

(** A promise is either made by a rule predicate, or is the promise
    [valid.then(values => ...)] that [test] chains on it; the latter remembers
    the variables its callback closes over. *)
Inductive promise :=
| Made (id : nat)
| Chained (source : promise) (field : string) (rule : RuleSpec.t).

(** The values the validator tells apart (numbers are integral here). *)
Inductive jsval :=
| JUndefined
| JNull
| JBool (b : bool)
| JNum (n : Z)
| JStr (s : string)
| JPromise (p : promise).

(** [!!v] *)
Definition truthy (v : jsval) : bool :=
  match v with
  | JUndefined | JNull => false
  | JBool b => b
  | JNum n => negb (n =? 0)
  | JStr s => negb (String.eqb s "")
  | JPromise _ => true
  end.

(** [typeof v] *)
Definition typeof (v : jsval) : string :=
  match v with
  | JUndefined => "undefined"
  | JNull => "object"
  | JBool _ => "boolean"
  | JNum _ => "number"
  | JStr _ => "string"
  | JPromise _ => "object"
  end.

(** A property that holds either a function of type [F] or a plain value; an
    absent property reads as [Val JUndefined]. *)
Inductive member (F : Type) :=
| Fn (f : F)
| Val (v : jsval).
Arguments Fn {F} f.
Arguments Val {F} v.

Definition typeofM {F} (m : member F) : string :=
  match m with Fn _ => "function" | Val v => typeof v end.

Definition truthyM {F} (m : member F) : bool :=
  match m with Fn _ => true | Val v => truthy v end.

(** A rule predicate [(value, params) => ...] and a message formatter
    [(field, params) => ...]. *)
Abbreviation predicate := (jsval -> option (list string) -> jsval).
Abbreviation formatter := (string -> option (list string) -> string).

(** One entry of the array an asynchronous predicate resolves to. *)
Module SubCheck.
Record t := make { valid : bool }.
End SubCheck.

Inductive exn :=
| TypeError
| ValidatorException (msg : string).

Inductive completion (A : Type) :=
| Ok (a : A)
| Throw (e : exn).
Arguments Ok {A} a.
Arguments Throw {A} e.

(** A method body: it runs on a state, may change it, and completes normally
    or by throwing; what was written before a throw stays written. *)
Definition Exec (St A : Type) : Type := St -> completion A * St.

Definition ret {St A} (a : A) : Exec St A := fun s => (Ok a, s).
Definition throw {St A} (e : exn) : Exec St A := fun s => (Throw e, s).
Definition bind {St A B} (c : Exec St A) (k : A -> Exec St B) : Exec St B :=
  fun s => match c s with
           | (Ok a, s') => k a s'
           | (Throw e, s') => (Throw e, s')
           end.
Definition update {St} (f : St -> St) : Exec St unit := fun s => (Ok tt, f s).
Definition read {St A} (f : St -> A) : Exec St A := fun s => (Ok (f s), s).

Notation "'let!' x ':=' c 'in' k" := (bind c (fun x => k))
  (at level 10, x name, c at level 100, k at level 200, only parsing).
Notation "c '>>' k" := (bind c (fun _ => k))
  (at level 100, k at level 200, right associativity, only parsing).

(** [xs.forEach(x => { acc = body(x) })] for a local variable [acc] that the
    callback assigns: the elements are visited in order and a throw ends the
    loop. *)
Fixpoint forEach {St A T} (xs : list A) (acc : T) (body : A -> Exec St T) : Exec St T :=
  match xs with
  | [] => ret acc
  | x :: xs' => let! acc' := body x in forEach xs' acc' body
  end.

(** [xs.forEach(x => body(x))] for a callback run for its effect only. *)
Definition forEach_ {St A} (xs : list A) (body : A -> Exec St unit) : Exec St unit :=
  forEach xs tt body.

(** ** Building the chains of a new validator *)

Module Proto.

(** The property names that a plain object such as [{}] inherits from
    [Object.prototype].  Reading one of them from an object that does not own
    it gives a function (for [__proto__] the prototype itself): a truthy
    value without a [push] method. *)
Definition names : list string :=
  ["constructor"; "hasOwnProperty"; "isPrototypeOf"; "propertyIsEnumerable";
   "toLocaleString"; "toString"; "valueOf"; "__proto__";
   "__defineGetter__"; "__defineSetter__"; "__lookupGetter__"; "__lookupSetter__"].

Definition inherited (name : string) : bool := existsb (String.eqb name) names.

End Proto.

(** [if (! normalized[property]) { normalized[property] = []; }] on the plain
    object [normalized], whose own properties are the map: an own array and an
    inherited value are both truthy, only a name that is neither owned nor
    inherited reads as [undefined]. *)
Definition ensureChain (property : string) : Exec (gmap string (list RuleSpec.t)) unit :=
  fun normalized =>
    match normalized !! property with
    | Some _ => (Ok tt, normalized)
    | None =>
        if Proto.inherited property then (Ok tt, normalized)
        else (Ok tt, <[property := []]> normalized)
    end.

(** [normalized[property].push(rule)]: an own array gets the rule; what is
    read otherwise has no [push], and calling it throws. *)
Definition pushChain (property : string) (rule : RuleSpec.t)
  : Exec (gmap string (list RuleSpec.t)) unit :=
  fun normalized =>
    match normalized !! property with
    | Some chain => (Ok tt, <[property := chain ++ [rule]]> normalized)
    | None => (Throw TypeError, normalized)
    end.

(** [normalize(validations)], lines 207-224.  The argument is [undefined] or an
    object whose entries are listed in [Object.keys] order; [normalized] starts
    as [{}]. *)
Definition normalize (validations : option (list (string * string)))
  : completion (gmap string (list RuleSpec.t)) :=
  match validations with
  | None => Ok ∅
  | Some entries =>
      match
        forEach_ entries (fun '(property, expr) =>
          forEach_ (Str.split "|" expr) (fun rule =>
            ensureChain property >> pushChain property (normalizeRule rule)))
          ∅
      with
      | (Ok _, normalized) => Ok normalized
      | (Throw e, _) => Throw e
      end
  end.

(** ** The error bag *)

Module ErrorBag.

(** Modelled from the spec: the class [ErrorBag] of [./errorBag] is imported
    by the validator and is not part of the sources.  An entry is
    [{field, message}]; the bag maps a field name to that field's entries in
    insertion order. *)
Record Entry := make { field : string; message : string }.

(** Modelled from the spec: [add(field, message)] appends an entry to those of
    the field. *)
Definition add (field message : string) (bag : gmap string (list Entry))
  : gmap string (list Entry) :=
  <[field := default [] (bag !! field) ++ [make field message]]> bag.

(** Modelled from the spec: [remove(field)] deletes all entries of the
    field. *)
Definition remove (field : string) (bag : gmap string (list Entry))
  : gmap string (list Entry) :=
  delete field bag.

(** Modelled from the spec: [clear()] deletes all entries of all fields. *)
Definition clear (bag : gmap string (list Entry)) : gmap string (list Entry) := ∅.

(** The entries recorded for a field, as a caller enumerating the bag finds
    them. *)
Definition entries (field : string) (bag : gmap string (list Entry)) : list Entry :=
  default [] (bag !! field).

End ErrorBag.

(** ** The shared registries and the extension mechanism *)

(** [Rules] and [Messages], the default exports of [./rules] and
    [./messages]: name to predicate, and locale to name to formatter.  Their
    initial content is not part of the sources, so every statement below is
    about an arbitrary content. *)
Record Registries := mkRegistries {
  Rules : gmap string (member predicate);
  Messages : gmap string (gmap string (member formatter))
}.

Definition setRule (name : string) (v : member predicate) (R : Registries) : Registries :=
  {| Rules := <[name := v]> (Rules R); Messages := Messages R |}.

(** [Messages[locale] = {}] *)
Definition newLocale (locale : string) (R : Registries) : Registries :=
  {| Rules := Rules R; Messages := <[locale := ∅]> (Messages R) |}.

(** [Messages[locale][name] = v]; writing into a missing sub-mapping throws. *)
Definition setMessage (locale name : string) (v : member formatter) : Exec Registries unit :=
  fun R =>
    match Messages R !! locale with
    | None => (Throw TypeError, R)
    | Some sub =>
        (Ok tt, {| Rules := Rules R; Messages := <[locale := <[name := v]> sub]> (Messages R) |})
    end.

(** [if (! Messages[locale]) { Messages[locale] = {}; }] *)
Definition ensureLocale (locale : string) : Exec Registries unit :=
  fun R =>
    match Messages R !! locale with
    | None => (Ok tt, newLocale locale R)
    | Some _ => (Ok tt, R)
    end.

Module Ext.

(** The [messages] property of a validator object: missing, [null], or an
    object from locale to message, its entries in [Object.keys] order. *)
Inductive messagesMember :=
| MsgAbsent
| MsgNull
| MsgObject (entries : list (string * member formatter)).

Definition typeofMessages (m : messagesMember) : string :=
  match m with
  | MsgAbsent => "undefined"
  | MsgNull => "object"
  | MsgObject _ => "object"
  end.

Record object := mkObject {
  validate : member predicate;
  getMessage : member formatter;
  messages : messagesMember
}.

(** The second argument of [extend]: a function or an object. *)
Inductive validator :=
| Function (f : predicate)
| Object (o : object).

End Ext.

(** [guardExtend(name, validator)], lines 113-137. *)
Definition guardExtend (name : string) (validator : Ext.validator) : Exec Registries unit :=
  let! registered := read (fun R => match Rules R !! name with
                                    | Some m => truthyM m
                                    | None => false
                                    end) in
  if registered : bool then
    throw (ValidatorException
      ("Extension Error: There is an existing validator with the same name '" +:+ name +:+ "'."))
  else
    match validator with
    | Ext.Function _ => ret tt
    | Ext.Object o =>
        if negb (String.eqb (typeofM (Ext.validate o)) "function") then
          throw (ValidatorException
            ("Extension Error: The validator '" +:+ name
               +:+ "' must be a function or have a 'validate' method."))
        else if negb (String.eqb (typeofM (Ext.getMessage o)) "function")
                && negb (String.eqb (Ext.typeofMessages (Ext.messages o)) "object") then
          throw (ValidatorException
            ("Extension Error: The validator '" +:+ name
               +:+ "' must have a 'getMessage' method or have a 'messages' object."))
        else ret tt
    end.

(** [merge(name, validator)], lines 83-105. *)
Definition merge (name : string) (validator : Ext.validator) : Exec Registries unit :=
  match validator with
  | Ext.Function f =>
      update (setRule name (Fn f)) >>
      setMessage "en" name (Fn (fun field _ => "The " +:+ field +:+ " value is not valid."))
  | Ext.Object o =>
      update (setRule name (Ext.validate o)) >>
      (match Ext.getMessage o with
       | Fn g => setMessage "en" name (Fn g)
       | Val _ => ret tt
       end) >>
      match Ext.messages o with
      | Ext.MsgObject entries =>
          forEach_ entries (fun '(locale, msg) =>
            ensureLocale locale >> setMessage locale name msg)
      | Ext.MsgAbsent | Ext.MsgNull => ret tt
      end
  end.

(** [extend(name, validator)], lines 71-75 (the instance method of lines
    163-165 forwards to it). *)
Definition extend (name : string) (validator : Ext.validator) : Exec Registries unit :=
  guardExtend name validator >> merge name validator.

(** [updateDictionary(messages)], lines 43-53. *)
Definition updateDictionary (messages : list (string * list (string * member formatter)))
  : Exec Registries unit :=
  forEach_ messages (fun '(locale, entries) =>
    ensureLocale locale >>
    forEach_ entries (fun '(name, msg) => setMessage locale name msg)).

(** ** The validator instance *)

Record Validator := mkValidator {
  locale : string;
  validations : gmap string (list RuleSpec.t);
  errorBag : gmap string (list ErrorBag.Entry)
}.

Definition withBag (f : gmap string (list ErrorBag.Entry) -> gmap string (list ErrorBag.Entry))
  (this : Validator) : Validator :=
  {| locale := locale this; validations := validations this; errorBag := f (errorBag this) |}.

(** [new Validator(validations)], lines 8-12, and [Validator.create]: no
    validator comes back when [normalize] throws. *)
Definition create (validations : option (list (string * string))) : completion Validator :=
  match normalize validations with
  | Ok normalized => Ok {| locale := "en"; validations := normalized; errorBag := ∅ |}
  | Throw e => Throw e
  end.

(** [new Validator()]: the validator that the constructor builds from no
    mapping. *)
Definition blank : Validator := {| locale := "en"; validations := ∅; errorBag := ∅ |}.

(** [setLocale(language)], lines 19-21. *)
Definition setLocale (language : string) (this : Validator) : Validator :=
  {| locale := language; validations := validations this; errorBag := errorBag this |}.

(** [attach(name, checks)], lines 29-36: the chain is reset to [[]], the
    field's errors are removed, and the rules of [checks] are pushed in
    order. *)
Definition attach (name checks : string) (this : Validator) : Validator :=
  let this := {| locale := locale this;
                 validations := <[name := []]> (validations this);
                 errorBag := ErrorBag.remove name (errorBag this) |} in
  fold_left (fun this rule =>
      {| locale := locale this;
         validations := alter (fun chain => chain ++ [normalizeRule rule]) name (validations this);
         errorBag := errorBag this |})
    (Str.split "|" checks) this.

(** [detach(name)], lines 153-155. *)
Definition detach (name : string) (this : Validator) : Validator :=
  {| locale := locale this;
     validations := delete name (validations this);
     errorBag := errorBag this |}.


Section Instance.

(** The registries as they are while the methods below run. *)
Variable G : Registries.

(** [m(field, params)] for a looked-up message [m]; calling what is not a
    function throws. *)
Definition callFormatter (m : option (member formatter)) (field : string)
  (params : option (list string)) : Exec Validator string :=
  match m with
  | Some (Fn f) => ret (f field params)
  | Some (Val _) | None => throw TypeError
  end.

(** [formatErrorMessage(field, rule)], lines 251-258. *)
Definition formatErrorMessage (field : string) (rule : RuleSpec.t) : Exec Validator string :=
  let! current := read (fun this => Messages G !! locale this) in
  let localized :=
    match current with
    | Some sub => match sub !! RuleSpec.name rule with
                  | Some m => String.eqb (typeofM m) "function"
                  | None => false
                  end
    | None => false
    end in
  if negb localized then
    match Messages G !! "en" with
    | Some en => callFormatter (en !! RuleSpec.name rule) field (RuleSpec.params rule)
    | None => throw TypeError
    end
  else
    callFormatter (current ≫= (.!! RuleSpec.name rule)) field (RuleSpec.params rule).

(** [this.errorBag.add(name, this.formatErrorMessage(name, rule))] *)
Definition recordError (name : string) (rule : RuleSpec.t) : Exec Validator unit :=
  let! msg := formatErrorMessage name rule in
  update (withBag (ErrorBag.add name msg)).

(** The callback [values => { ... }] of lines 273-281. *)
Definition onResolved (name : string) (rule : RuleSpec.t) (values : list SubCheck.t)
  : Exec Validator jsval :=
  let allValid := fold_left (fun prev curr => prev && SubCheck.valid curr) values true in
  (if negb allValid then recordError name rule else ret tt) >>
  ret (JBool allValid).

(** What a promise does when its source is fulfilled with [values]: a promise
    chained by [test] runs its callback and is fulfilled with the callback's
    result (or rejected with what it throws); the validator attaches nothing
    to other promises. *)
Definition fulfil (p : promise) (values : list SubCheck.t) : option (Exec Validator jsval) :=
  match p with
  | Chained _ name rule => Some (onResolved name rule values)
  | Made _ => None
  end.

(** [test(name, value, rule)], lines 268-289. *)
Definition test (name : string) (value : jsval) (rule : RuleSpec.t) : Exec Validator jsval :=
  match Rules G !! RuleSpec.name rule with
  | Some (Fn validator) =>
      let valid := validator value (RuleSpec.params rule) in
      match valid with
      | JPromise p => ret (JPromise (Chained p name rule))
      | _ =>
          (if negb (truthy valid) then recordError name rule else ret tt) >>
          ret valid
      end
  | Some (Val _) | None => throw TypeError
  end.

(** [validate(name, value)], lines 191-199. *)
Definition validate (name : string) (value : jsval) : Exec Validator jsval :=
  let test0 := JBool true in
  update (withBag (ErrorBag.remove name)) >>
  let! chain := read (fun this => validations this !! name) in
  match chain with
  | Some rules => forEach rules test0 (fun rule => test name value rule)
  | None => throw TypeError
  end.

(** [validateAll(values)], lines 173-181; [values] lists the object's entries
    in [Object.keys] order. *)
Definition validateAll (values : list (string * jsval)) : Exec Validator jsval :=
  let test0 := JBool true in
  update (withBag ErrorBag.clear) >>
  forEach values test0 (fun '(property, value) => validate property value).

End Instance.

(** ** Specification-level notions used in the statements *)

(** The formatter of a registry entry, when the entry is callable. *)
Definition callable {F} (m : option (member F)) : option F :=
  match m with
  | Some (Fn f) => Some f
  | Some (Val _) | None => None
  end.

(** The formatter the catalog offers for a rule under a locale: the one of
    the locale's own sub-mapping when that sub-mapping exists and its entry
    is callable, and the English one otherwise. *)
Definition formatterFor (G : Registries) (loc rule : string) : option formatter :=
  match callable (Messages G !! loc ≫= (.!! rule)) with
  | Some f => Some f
  | None => callable (Messages G !! "en" ≫= (.!! rule))
  end.

(** The catalog has a callable formatter [f] for [rule] in the sub-mapping
    of locale [loc]. *)
Definition offers (G : Registries) (loc rule : string) (f : formatter) : Prop :=
  ∃ sub, Messages G !! loc = Some sub ∧ sub !! rule = Some (Fn f).

(** [f] is the active locale's formatter, or the English one when the active
    locale's sub-mapping is absent or its entry for the rule is not
    callable. *)
Definition formats (G : Registries) (loc rule : string) (f : formatter) : Prop :=
  offers G loc rule f ∨ ((∀ g, ¬ offers G loc rule g) ∧ offers G "en" rule f).

(** A rule that answers [v] synchronously on [value]: its name is registered
    with a predicate, and the predicate's answer [v] is not a promise. *)
Definition syncAnswer (G : Registries) (value : jsval) (rule : RuleSpec.t) (v : jsval) : Prop :=
  ∃ p, Rules G !! RuleSpec.name rule = Some (Fn p)
       ∧ p value (RuleSpec.params rule) = v
       ∧ ∀ q, v ≠ JPromise q.

(** A rule that runs synchronously to completion: it answers synchronously,
    and a falsy answer finds a formatter under locale [loc]. *)
Definition runsSync (G : Registries) (loc : string) (value : jsval)
  (rule : RuleSpec.t) (v : jsval) : Prop :=
  syncAnswer G value rule v
  ∧ (truthy v = false → is_Some (formatterFor G loc (RuleSpec.name rule))).

(** The error entries a synchronous pass over [rules] records, given each
    rule's answer: one entry per falsy answer, in chain order. *)
Fixpoint passEntries (G : Registries) (loc field : string)
  (rules : list RuleSpec.t) (answers : list jsval) : list ErrorBag.Entry :=
  match rules, answers with
  | rule :: rules', v :: answers' =>
      (if truthy v then []
       else match formatterFor G loc (RuleSpec.name rule) with
            | Some f => [ErrorBag.make field (f field (RuleSpec.params rule))]
            | None => []
            end)
      ++ passEntries G loc field rules' answers'
  | _, _ => []
  end.

(** What a validator looks like after some entries were added for [name]:
    same locale, same chains, the entries appended to those of [name], every
    other field's entries untouched. *)
Definition extendsAt (name : string) (added : list ErrorBag.Entry)
  (before after : Validator) : Prop :=
  locale after = locale before
  ∧ validations after = validations before
  ∧ ErrorBag.entries name (errorBag after) = ErrorBag.entries name (errorBag before) ++ added
  ∧ ∀ other, other ≠ name → errorBag after !! other = errorBag before !! other.

(** Two validators that differ at most in their error bags. *)
Definition sameSetup (a b : Validator) : Prop :=
  locale a = locale b ∧ validations a = validations b.

(** Two validators that differ at most in the entries of fields other than
    [name]. *)
Definition agreeOn (name : string) (a b : Validator) : Prop :=
  sameSetup a b ∧ errorBag a !! name = errorBag b !! name.

(** The tokens of the rule grammar [rule ('|' rule)*], [name (':' params)?],
    [token (',' token)*]: a name holds no ['|'] and no [':'], a parameter
    token holds none of the three delimiters. *)
Definition isName (s : string) : bool := Str.free "|" s && Str.free ":" s.
Definition isToken (s : string) : bool := isName s && Str.free "," s.

(** A validator argument as the extension contract wants it: a function, or
    an object with a callable [validate] and with a callable [getMessage] or
    a [messages] mapping. *)
Definition wellFormed (validator : Ext.validator) : bool :=
  match validator with
  | Ext.Function _ => true
  | Ext.Object o =>
      match Ext.validate o with
      | Fn _ =>
          match Ext.getMessage o, Ext.messages o with
          | Fn _, _ | _, Ext.MsgObject _ => true
          | Val _, (Ext.MsgAbsent | Ext.MsgNull) => false
          end
      | Val _ => false
      end
  end.

(** ** Notions used in the further properties *)

(** [expr.split('|').map(normalizeRule)]: the chain that [attach] and
    [normalize] build from one expression. *)
Definition parseExpression (expr : string) : list RuleSpec.t :=
  map normalizeRule (Str.split "|" expr).

(** The pieces joined by [sep], as [xs.join(sep)] does. *)
Fixpoint join (sep : string) (xs : list string) : string :=
  match xs with
  | [] => ""
  | [x] => x
  | x :: xs' => x +:+ sep +:+ join sep xs'
  end.

(** A rule and a chain written back in the expression syntax. *)
Definition renderRule (rule : RuleSpec.t) : string :=
  match RuleSpec.params rule with
  | None => RuleSpec.name rule
  | Some tokens => RuleSpec.name rule +:+ ":" +:+ join "," tokens
  end.

Definition render (chain : list RuleSpec.t) : string := join "|" (map renderRule chain).

(** A rule as the grammar writes it: a name without ['|'] and [':'], and no
    parameters or at least one parameter token. *)
Definition grammatical (rule : RuleSpec.t) : bool :=
  isName (RuleSpec.name rule)
  && match RuleSpec.params rule with
     | None => true
     | Some tokens => negb (bool_decide (tokens = [])) && forallb isToken tokens
     end.

(** [Messages[loc][rule]], when the locale has a sub-mapping and the
    sub-mapping has the entry. *)
Definition messageAt (G : Registries) (loc rule : string) : option (member formatter) :=
  Messages G !! loc ≫= (.!! rule).


(** What the predicate registered for a rule answers on [value]
    ([undefined] stands in when nothing callable is registered). *)
Definition answerOf (G : Registries) (value : jsval) (rule : RuleSpec.t) : jsval :=
  match Rules G !! RuleSpec.name rule with
  | Some (Fn p) => p value (RuleSpec.params rule)
  | Some (Val _) | None => JUndefined
  end.

(** The number of falsy answers. *)
Definition failures (answers : list jsval) : nat :=
  length (filter (λ v, truthy v = false) answers).

(** ** Sample content for the registries

    The built-in rules and messages are not part of the sources; the examples
    run on this stand-in content. *)
Module Sample.

(** A value passes when it is truthy. *)
Definition required : predicate := λ value _, JBool (truthy value).

(** A string passes when it has at least three characters. *)
Definition min3 : predicate :=
  λ value _, match value with
             | JStr s => JBool (3 <=? Z.of_nat (String.length s))
             | _ => JBool false
             end.

(** An asynchronous rule: the answer is a promise. *)
Definition remote : predicate := λ _ _, JPromise (Made 0).

Definition en : gmap string (member formatter) :=
  <["required" := Fn (λ field _, "The " +:+ field +:+ " is required.")]>
  (<["min3" := Fn (λ field _, "The " +:+ field +:+ " is too short.")]>
  (<["remote" := Fn (λ field _, "The " +:+ field +:+ " was refused.")]> ∅)).

Definition fr : gmap string (member formatter) :=
  <["required" := Fn (λ field _, "Le champ " +:+ field +:+ " est obligatoire.")]>
  (<["min3" := Val (JStr "trop court")]> ∅).

Definition registries : Registries :=
  {| Rules := <["required" := Fn required]>
              (<["min3" := Fn min3]> (<["remote" := Fn remote]> ∅));
     Messages := <["en" := en]> (<["fr" := fr]> ∅) |}.

End Sample.

(** More stand-in content: the sample registries with a rule [silent], which
    always fails and has no message in any locale. *)
Module Demo.

Definition silent : predicate := λ _ _, JBool false.

Definition registries : Registries :=
  {| Rules := <["silent" := Fn silent]> (Rules Sample.registries);
     Messages := Messages Sample.registries |}.

(** An asynchronous rule that answers each call with a promise of its own
    (numbered after the value), and the sample registries with it. *)
Definition probe : predicate :=
  λ value _, JPromise (Made match value with JNum n => Z.to_nat n | _ => 0 end).

Definition probing : Registries :=
  {| Rules := <["probe" := Fn probe]> (Rules Sample.registries);
     Messages :=
       <["en" := <["probe" := Fn (λ field _, "The " +:+ field +:+ " was refused.")]>
                 Sample.en]> (Messages Sample.registries) |}.

End Demo.

(** Closing goals about the sample registries by evaluation. *)
Ltac by_evaluation := vm_compute; first [reflexivity | eexists; reflexivity | discriminate].

Ltac sample_answer p :=
  exists p; split; [by_evaluation|]; split; [by_evaluation|]; intros ?; discriminate.

Ltac sample_run p :=
  split; [sample_answer p | intros ?; first [discriminate | by_evaluation]].

(** * Properties *)

(** ** Strings *)

Section StringFacts.

Variable c : ascii.

Lemma indexOf_lower s : -1 <= Str.indexOf c s.
Proof.
  induction s as [|d s IH]; simpl; [lia|].
  destruct (Ascii.eqb d c); [lia|].
  destruct (Z.eqb_spec (Str.indexOf c s) (-1)); lia.
Qed.

Lemma indexOf_free s : Str.indexOf c s = -1 ↔ Str.free c s = true.
Proof.
  induction s as [|d s IH]; simpl; [done|].
  destruct (Ascii.eqb d c); simpl; [split; [lia|done]|].
  rewrite <- IH. pose proof (indexOf_lower s).
  destruct (Z.eqb_spec (Str.indexOf c s) (-1)); split; lia.
Qed.

Lemma lnot_indexOf s : (Z.lnot (Str.indexOf c s) =? 0) = Str.free c s.
Proof.
  destruct (Str.free c s) eqn:E.
  - apply indexOf_free in E. rewrite E. reflexivity.
  - apply Z.eqb_neq. intros H. unfold Z.lnot in H.
    assert (Str.indexOf c s = -1) as H' by lia.
    apply indexOf_free in H'. congruence.
Qed.

Lemma split_nonempty s : Str.split c s ≠ [].
Proof.
  destruct s as [|d s]; simpl; [done|].
  destruct (Ascii.eqb d c); [done|]. by destruct (Str.split c s).
Qed.

Lemma free_app a b : Str.free c (a +:+ b) = Str.free c a && Str.free c b.
Proof.
  induction a as [|d a IH]; simpl; [done|].
  rewrite IH. by destruct (Ascii.eqb d c).
Qed.

Lemma split_free s : Str.free c s = true → Str.split c s = [s].
Proof.
  induction s as [|d s IH]; simpl; [done|].
  destruct (Ascii.eqb d c); simpl; [done|].
  intros H. by rewrite IH.
Qed.

Lemma split_app a rest :
  Str.free c a = true → Str.split c (a +:+ String c rest) = a :: Str.split c rest.
Proof.
  induction a as [|d a IH]; simpl.
  - intros _. by rewrite Ascii.eqb_refl.
  - destruct (Ascii.eqb d c); simpl; [done|].
    intros H. by rewrite IH.
Qed.

Lemma split_first_piece s : item (Str.split c s) 0 = Str.before c s.
Proof.
  induction s as [|d s IH]; simpl; [done|].
  destruct (Ascii.eqb d c); [done|].
  pose proof (split_nonempty s).
  destruct (Str.split c s) as [|w ws]; [done|].
  unfold item in *. simpl in *. by rewrite IH.
Qed.

(** When [c] occurs, [s.split(c)] has a piece of index 1: the text between the
    first occurrence and the next one. *)
Lemma split_second_piece s :
  Str.free c s = false →
  (2 <= length (Str.split c s))%nat
  ∧ item (Str.split c s) 1 = Str.before c (Str.after c s).
Proof.
  induction s as [|d s IH]; simpl; [done|].
  destruct (Ascii.eqb d c); simpl.
  - intros _. pose proof (split_nonempty s). pose proof (split_first_piece s) as H1.
    destruct (Str.split c s) as [|w ws]; [done|]. split; [simpl; lia|]. exact H1.
  - intros H. destruct (IH H) as [Hlen Hit].
    destruct (Str.split c s) as [|w ws]; [simpl in Hlen; lia|].
    split; [exact Hlen|]. exact Hit.
Qed.

Lemma before_free s : Str.free c s = true → Str.before c s = s.
Proof.
  induction s as [|d s IH]; simpl; [done|].
  destruct (Ascii.eqb d c); simpl; [done|].
  intros H. by rewrite IH.
Qed.

End StringFacts.

(** ** The rule-chain parser *)

Lemma normalizeRule_plain rule :
  Str.free ":" rule = true → normalizeRule rule = RuleSpec.make rule None.
Proof.
  intros H. unfold normalizeRule.
  rewrite lnot_indexOf, H, split_first_piece, before_free; done.
Qed.

Lemma normalizeRule_params rule :
  Str.free ":" rule = false →
  normalizeRule rule =
    RuleSpec.make (Str.before ":" rule)
      (Some (Str.split "," (Str.before ":" (Str.after ":" rule)))).
Proof.
  intros H. unfold normalizeRule.
  rewrite lnot_indexOf, H, split_first_piece.
  by destruct (split_second_piece ":" rule H) as [_ ->].
Qed.

(** C4, as amended.  For every single-rule expression that contains a colon,
    the name is the text before the first colon and [params] is the
    comma-split of the text between the first colon and the next one; only
    when nothing after the first colon is a colon is that the entire
    substring following the first colon. *)
Theorem normalizeRule_between_colons (rule : string) :
  0 <= Str.indexOf ":" rule →
  normalizeRule rule =
    RuleSpec.make (Str.before ":" rule)
      (Some (Str.split "," (Str.before ":" (Str.after ":" rule))))
  ∧ (Str.free ":" (Str.after ":" rule) = true →
     RuleSpec.params (normalizeRule rule) = Some (Str.split "," (Str.after ":" rule))).
Proof.
  intros Hcolon.
  assert (Str.free ":" rule = false) as Hocc.
  { destruct (Str.free ":" rule) eqn:E; [|done].
    apply indexOf_free in E. lia. }
  split; [by apply normalizeRule_params|].
  intros Hone. rewrite (normalizeRule_params rule Hocc). simpl.
  by rewrite before_free.
Qed.

Lemma normalizeRule_between_colons_witness :
  0 <= Str.indexOf ":" "r:a:b"
  ∧ normalizeRule "r:a:b" = RuleSpec.make "r" (Some ["a"]).
Proof.
  split; [vm_compute; congruence|].
  apply (normalizeRule_between_colons "r:a:b"). vm_compute; congruence.
Defined.

(** C4, as stated, fails: the text after the first colon of ["r:a:b"] is
    ["a:b"], but the parameters are [["a"]]. *)
Lemma normalizeRule_second_colon :
  Str.split "," (Str.after ":" "r:a:b") = ["a:b"]
  ∧ RuleSpec.params (normalizeRule "r:a:b") = Some ["a"]
  ∧ RuleSpec.params (normalizeRule "r:a:b") ≠ Some ["a:b"].
Proof. repeat split; [reflexivity..|discriminate]. Qed.

Lemma split_two_rules (r1 r2 : string) :
  Str.free "|" r1 = true → Str.free "|" r2 = true →
  Str.split "|" (r1 +:+ "|" +:+ r2) = [r1; r2].
Proof.
  intros H1 H2. change ("|" +:+ r2) with (String "|" r2).
  by rewrite split_app, split_free.
Qed.

Lemma normalizeRule_two_params (a x y : string) :
  isName a = true → isToken x = true → isToken y = true →
  normalizeRule (a +:+ ":" +:+ x +:+ "," +:+ y) = RuleSpec.make a (Some [x; y]).
Proof.
  unfold isToken, isName.
  intros [_ Ha]%andb_prop [[_ Hx]%andb_prop Hx']%andb_prop [[_ Hy]%andb_prop Hy']%andb_prop.
  change (":" +:+ x +:+ "," +:+ y) with (String ":" (x +:+ String "," y)).
  assert (Str.free ":" (x +:+ String "," y) = true) as Hxy.
  { rewrite free_app. simpl. by rewrite Hx, Hy. }
  unfold normalizeRule. rewrite lnot_indexOf, free_app. simpl.
  rewrite andb_false_r, split_app by done.
  rewrite (split_free ":" _ Hxy). unfold item. simpl.
  by rewrite split_app, split_free.
Qed.

Lemma forEach__cons {St A} (x : A) (xs : list A) (body : A → Exec St unit) (s : St) :
  forEach_ (x :: xs) body s =
    match body x s with
    | (Ok _, s') => forEach_ xs body s'
    | (Throw e, s') => (Throw e, s')
    end.
Proof. unfold forEach_. simpl. unfold bind. by destruct (body x s) as [[[]|e] s']. Qed.

(** One turn of the inner loop of [normalize], for a property name that [{}]
    does not inherit. *)
Lemma normalize_push (property : string) (r : RuleSpec.t)
  (normalized : gmap string (list RuleSpec.t)) :
  Proto.inherited property = false →
  (ensureChain property >> pushChain property r) normalized
  = (Ok tt, <[property := default [] (normalized !! property) ++ [r]]> normalized).
Proof.
  intros Hown. unfold bind, ensureChain, pushChain.
  destruct (normalized !! property) as [chain|] eqn:E; simpl.
  - by rewrite E.
  - rewrite Hown. simpl. by rewrite lookup_insert_eq, insert_insert_eq.
Qed.

(** The same turn for an inherited name that the object does not own: no
    array is made, and the [push] throws. *)
Lemma normalize_push_inherited (property : string) (r : RuleSpec.t)
  (normalized : gmap string (list RuleSpec.t)) :
  Proto.inherited property = true →
  normalized !! property = None →
  (ensureChain property >> pushChain property r) normalized = (Throw TypeError, normalized).
Proof.
  intros Hproto Hnone. unfold bind, ensureChain, pushChain.
  rewrite Hnone, Hproto. simpl. by rewrite Hnone.
Qed.

(** The inner loop of [normalize] appends the parsed pieces, in order, to the
    chain the property has so far. *)
Lemma normalize_pieces (property : string) (pieces : list string) :
  Proto.inherited property = false →
  ∀ (piece : string) (normalized : gmap string (list RuleSpec.t)),
  forEach_ (piece :: pieces)
    (λ rule, ensureChain property >> pushChain property (normalizeRule rule)) normalized
  = (Ok tt,
     <[property := default [] (normalized !! property)
                     ++ map normalizeRule (piece :: pieces)]> normalized).
Proof.
  intros Hown. induction pieces as [|next pieces IH]; intros piece normalized.
  - rewrite forEach__cons, normalize_push by done. done.
  - rewrite forEach__cons, normalize_push by done.
    rewrite IH, lookup_insert_eq, insert_insert_eq. simpl. by rewrite <- app_assoc.
Qed.

Lemma normalize_field (property expr : string)
  (normalized : gmap string (list RuleSpec.t)) :
  Proto.inherited property = false →
  forEach_ (Str.split "|" expr)
    (λ rule, ensureChain property >> pushChain property (normalizeRule rule)) normalized
  = (Ok tt,
     <[property := default [] (normalized !! property)
                     ++ map normalizeRule (Str.split "|" expr)]> normalized).
Proof.
  intros Hown. pose proof (split_nonempty "|" expr) as Hne.
  destruct (Str.split "|" expr) as [|piece pieces]; [done|].
  by apply normalize_pieces.
Qed.

Lemma normalize_field_inherited (property expr : string)
  (normalized : gmap string (list RuleSpec.t)) :
  Proto.inherited property = true →
  normalized !! property = None →
  forEach_ (Str.split "|" expr)
    (λ rule, ensureChain property >> pushChain property (normalizeRule rule)) normalized
  = (Throw TypeError, normalized).
Proof.
  intros Hproto Hnone. pose proof (split_nonempty "|" expr) as Hne.
  destruct (Str.split "|" expr) as [|piece pieces]; [done|].
  by rewrite forEach__cons, normalize_push_inherited.
Qed.

(** A validator built from one field has the parsed pieces of the field's
    expression as that field's chain. *)
Lemma normalize_single (field expr : string) :
  Proto.inherited field = false →
  normalize (Some [(field, expr)])
  = Ok {[ field := map normalizeRule (Str.split "|" expr) ]}.
Proof.
  intros Hown. unfold normalize.
  rewrite forEach__cons, normalize_field by done. by rewrite lookup_empty.
Qed.

(** [attach] installs the parsed pieces as the field's chain, drops the
    field's errors and leaves the locale alone. *)
Lemma attach_spec (name checks : string) (this : Validator) :
  attach name checks this =
    {| locale := locale this;
       validations := <[name := map normalizeRule (Str.split "|" checks)]> (validations this);
       errorBag := ErrorBag.remove name (errorBag this) |}.
Proof.
  unfold attach.
  assert (∀ pieces chain that,
    validations that !! name = Some chain →
    fold_left (λ this rule,
        {| locale := locale this;
           validations := alter (λ chain, chain ++ [normalizeRule rule]) name (validations this);
           errorBag := errorBag this |}) pieces that
    = {| locale := locale that;
         validations := <[name := chain ++ map normalizeRule pieces]> (validations that);
         errorBag := errorBag that |}) as Hloop.
  { induction pieces as [|piece pieces IH]; intros chain that Hchain; simpl.
    - rewrite app_nil_r, insert_id by done. by destruct that.
    - rewrite (IH (chain ++ [normalizeRule piece])); simpl.
      + f_equal. rewrite <- app_assoc. simpl.
        apply map_eq. intros k. rewrite !lookup_insert, lookup_alter.
        by case_decide.
      + rewrite lookup_alter. case_decide; [|done]. by rewrite Hchain. }
  rewrite (Hloop _ []); simpl.
  - by rewrite insert_insert_eq.
  - by rewrite lookup_insert_eq.
Qed.

(** C5.  The expression [a:x,y|b], for any names [a], [b] and parameter tokens
    [x], [y], parses to the chain [{name: a, params: [x, y]}],
    [{name: b, params: null}], in that order and with the raw texts untouched,
    both when the validator is built from it and when it is attached (for a
    field name that is not one of the names a plain object inherits). *)
Theorem normalize_two_rules (field a x y b : string) (this : Validator) :
  Proto.inherited field = false →
  isName a = true → isToken x = true → isToken y = true → isName b = true →
  let expr := (a +:+ ":" +:+ x +:+ "," +:+ y) +:+ "|" +:+ b in
  let chain := [RuleSpec.make a (Some [x; y]); RuleSpec.make b None] in
  normalize (Some [(field, expr)]) = Ok {[ field := chain ]}
  ∧ validations (attach field expr this) !! field = Some chain.
Proof.
  intros Hown Ha Hx Hy Hb expr chain.
  assert (Str.split "|" expr = [a +:+ ":" +:+ x +:+ "," +:+ y; b]) as Hsplit.
  { apply split_two_rules.
    - unfold isToken, isName in *.
      apply andb_prop in Ha as [Ha _]. apply andb_prop in Hx as [[Hx _]%andb_prop _].
      apply andb_prop in Hy as [[Hy _]%andb_prop _].
      change (":" +:+ x +:+ "," +:+ y) with (String ":" (x +:+ String "," y)).
      rewrite free_app. simpl. rewrite free_app. simpl. by rewrite Ha, Hx, Hy.
    - unfold isName in Hb. by apply andb_prop in Hb as [Hb _]. }
  assert (normalizeRule b = RuleSpec.make b None) as Hb'.
  { apply normalizeRule_plain. unfold isName in Hb. by apply andb_prop in Hb as [_ Hb]. }
  assert (map normalizeRule (Str.split "|" expr) = chain) as Hchain.
  { rewrite Hsplit. simpl. by rewrite normalizeRule_two_params, Hb'. }
  split.
  - by rewrite normalize_single, Hchain.
  - rewrite attach_spec. simpl. by rewrite lookup_insert_eq, Hchain.
Qed.

Lemma normalize_two_rules_witness :
  Proto.inherited "email" = false
  ∧ isName "a" = true ∧ isToken "x" = true ∧ isToken "y" = true ∧ isName "b" = true
  ∧ normalize (Some [("email", "a:x,y|b")])
    = Ok {[ "email" := [RuleSpec.make "a" (Some ["x"; "y"]); RuleSpec.make "b" None] ]}.
Proof.
  repeat (split; [reflexivity|]).
  apply (normalize_two_rules "email" "a" "x" "y" "b" blank); reflexivity.
Defined.

(** ** Message formatting and single-rule evaluation *)

Section Evaluation.

Variable G : Registries.

Lemma typeof_not_function (v : jsval) : String.eqb (typeof v) "function" = false.
Proof. by destruct v. Qed.

(** [formatErrorMessage] calls the formatter the catalog offers for the rule
    under the current locale, and throws when there is none. *)
Lemma formatErrorMessage_spec (field : string) (rule : RuleSpec.t) (this : Validator) :
  formatErrorMessage G field rule this =
    match formatterFor G (locale this) (RuleSpec.name rule) with
    | Some f => (Ok (f field (RuleSpec.params rule)), this)
    | None => (Throw TypeError, this)
    end.
Proof.
  unfold formatErrorMessage, formatterFor, bind, read. simpl.
  destruct (Messages G !! locale this) as [sub|]; simpl.
  - destruct (sub !! RuleSpec.name rule) as [[f|v]|]; simpl; [done|..].
    + rewrite typeof_not_function. simpl.
      by destruct (Messages G !! "en") as [en|]; simpl;
        [destruct (en !! RuleSpec.name rule) as [[g|w]|]|].
    + by destruct (Messages G !! "en") as [en|]; simpl;
        [destruct (en !! RuleSpec.name rule) as [[g|w]|]|].
  - by destruct (Messages G !! "en") as [en|]; simpl;
      [destruct (en !! RuleSpec.name rule) as [[g|w]|]|].
Qed.

Lemma recordError_spec (name : string) (rule : RuleSpec.t) (this : Validator) :
  recordError G name rule this =
    match formatterFor G (locale this) (RuleSpec.name rule) with
    | Some f =>
        (Ok tt, withBag (ErrorBag.add name (f name (RuleSpec.params rule))) this)
    | None => (Throw TypeError, this)
    end.
Proof.
  unfold recordError, bind. rewrite formatErrorMessage_spec.
  by destruct (formatterFor G (locale this) (RuleSpec.name rule)).
Qed.

Lemma extendsAt_refl name this : extendsAt name [] this this.
Proof. unfold extendsAt. by rewrite app_nil_r. Qed.

Lemma extendsAt_add name msg this :
  extendsAt name [ErrorBag.make name msg] this (withBag (ErrorBag.add name msg) this).
Proof.
  unfold extendsAt, withBag, ErrorBag.entries, ErrorBag.add. simpl.
  repeat split; [by rewrite lookup_insert_eq|].
  intros other Hne. by rewrite lookup_insert_ne.
Qed.

Lemma extendsAt_trans name xs ys a b d :
  extendsAt name xs a b → extendsAt name ys b d → extendsAt name (xs ++ ys) a d.
Proof.
  intros (Hl1 & Hv1 & He1 & Ho1) (Hl2 & Hv2 & He2 & Ho2).
  repeat split; [congruence..| |].
  - by rewrite He2, He1, app_assoc.
  - intros other Hne. by rewrite Ho2, Ho1.
Qed.

(** A synchronous rule: [test] returns the predicate's answer and records one
    formatted entry exactly when the answer is falsy. *)
Lemma test_sync (name : string) (value : jsval) (rule : RuleSpec.t) (v : jsval)
  (this : Validator) :
  runsSync G (locale this) value rule v →
  (test G name value rule this).1 = Ok v
  ∧ extendsAt name (passEntries G (locale this) name [rule] [v]) this
      (test G name value rule this).2.
Proof.
  intros [(p & Hp & Hv & Hsync) Hfmt].
  unfold test. rewrite Hp, Hv. simpl. rewrite app_nil_r.
  destruct (truthy v) eqn:Etruthy.
  - assert ((match v with
             | JPromise q => ret (JPromise (Chained q name rule))
             | _ => (if negb true then recordError G name rule else ret tt) >> ret v
             end) this = (Ok v, this)) as ->.
    { destruct v; try done. by destruct (Hsync p0). }
    split; [done|]. apply extendsAt_refl.
  - destruct (Hfmt eq_refl) as [f Hf].
    assert ((match v with
             | JPromise q => ret (JPromise (Chained q name rule))
             | _ => (if negb false then recordError G name rule else ret tt) >> ret v
             end) this
            = (Ok v, withBag (ErrorBag.add name (f name (RuleSpec.params rule))) this)) as ->.
    { destruct v; try done; unfold bind; simpl; by rewrite recordError_spec, Hf. }
    rewrite Hf. split; [done|]. apply extendsAt_add.
Qed.

Lemma passEntries_cons loc field rule rules v answers :
  passEntries G loc field (rule :: rules) (v :: answers)
  = passEntries G loc field [rule] [v] ++ passEntries G loc field rules answers.
Proof. simpl. by rewrite app_nil_r. Qed.

Lemma last_cons {A} (xs : list A) (x d : A) : List.last (x :: xs) d = List.last xs x.
Proof.
  revert x d. induction xs as [|y xs IH]; intros x d; [done|].
  change (List.last (x :: y :: xs) d) with (List.last (y :: xs) d).
  by rewrite (IH y d), (IH y x).
Qed.

(** A chain of synchronous rules: the loop of [validate] returns the last
    answer (the initial value of the local variable for an empty chain) and
    records the entries of the falsy answers in order. *)
Lemma forEach_sync (name : string) (value : jsval) (rules : list RuleSpec.t) :
  ∀ (answers : list jsval) (acc : jsval) (this : Validator),
  Forall2 (runsSync G (locale this) value) rules answers →
  (forEach rules acc (test G name value) this).1 = Ok (List.last answers acc)
  ∧ extendsAt name (passEntries G (locale this) name rules answers) this
      (forEach rules acc (test G name value) this).2.
Proof.
  induction rules as [|rule rules IH]; intros answers acc this Hall.
  - apply Forall2_nil_inv_l in Hall as ->. simpl. split; [done|]. apply extendsAt_refl.
  - apply Forall2_cons_inv_l in Hall as (v & answers' & Hv & Hrest & ->).
    destruct (test_sync name value rule v this Hv) as [Hres Hext].
    simpl forEach. unfold bind.
    destruct (test G name value rule this) as [res that].
    cbn [fst snd] in Hres, Hext. subst res.
    assert (locale that = locale this) as Hloc by apply Hext.
    rewrite <- Hloc in Hrest.
    destruct (IH answers' v that Hrest) as [Hres' Hext'].
    split.
    + by rewrite Hres', last_cons.
    + rewrite passEntries_cons.
      eapply extendsAt_trans; [exact Hext|]. by rewrite <- Hloc.
Qed.

End Evaluation.

(** ** The validation pass *)

Section Validation.

Variable G : Registries.

Lemma callable_Some {F} (m : option (member F)) (f : F) :
  callable m = Some f ↔ m = Some (Fn f).
Proof. destruct m as [[g|v]|]; simpl; split; congruence. Qed.

Lemma formatterFor_formats (loc rule : string) (f : formatter) :
  formatterFor G loc rule = Some f ↔ formats G loc rule f.
Proof.
  unfold formatterFor, formats, offers. split.
  - destruct (Messages G !! loc) as [sub|] eqn:Eloc; simpl.
    + destruct (sub !! rule) as [[g|v]|] eqn:Esub; simpl.
      * intros [= ->]. left. eauto.
      * intros H. right. split; [intros g (sub' & [= <-] & ?); congruence|].
        destruct (Messages G !! "en") as [en|]; simpl in H; [|done].
        exists en. split; [done|]. by apply callable_Some.
      * intros H. right. split; [intros g (sub' & [= <-] & ?); congruence|].
        destruct (Messages G !! "en") as [en|]; simpl in H; [|done].
        exists en. split; [done|]. by apply callable_Some.
    + intros H. right. split; [by intros g (sub' & ? & ?)|].
      destruct (Messages G !! "en") as [en|]; simpl in H; [|done].
      exists en. split; [done|]. by apply callable_Some.
  - intros [(sub & Hsub & Hf)|[Hnone (en & Hen & Hf)]].
    + by rewrite Hsub; simpl; rewrite Hf.
    + assert (callable (Messages G !! loc ≫= (.!! rule)) = None) as ->.
      { destruct (Messages G !! loc) as [sub|] eqn:Eloc; simpl; [|done].
        destruct (sub !! rule) as [[g|v]|] eqn:Esub; simpl; try done.
        destruct (Hnone g). eauto. }
      by rewrite Hen; simpl; rewrite Hf.
Qed.

(** [validate], with its two sequencing steps carried out. *)
Lemma validate_unfold (name : string) (value : jsval) (this : Validator) :
  validate G name value this =
    match validations this !! name with
    | Some rules =>
        forEach rules (JBool true) (test G name value) (withBag (ErrorBag.remove name) this)
    | None => (Throw TypeError, withBag (ErrorBag.remove name) this)
    end.
Proof.
  unfold validate, bind, update, read. simpl.
  by destruct (validations this !! name).
Qed.

(** A pass over a chain of synchronous rules: the result is the last answer,
    the field's entries are exactly those of the falsy answers, and nothing
    else changes. *)
Lemma validate_sync (name : string) (value : jsval) (rules : list RuleSpec.t)
  (answers : list jsval) (this : Validator) :
  validations this !! name = Some rules →
  Forall2 (runsSync G (locale this) value) rules answers →
  (validate G name value this).1 = Ok (List.last answers (JBool true))
  ∧ locale (validate G name value this).2 = locale this
  ∧ validations (validate G name value this).2 = validations this
  ∧ ErrorBag.entries name (errorBag (validate G name value this).2)
    = passEntries G (locale this) name rules answers
  ∧ ∀ other, other ≠ name →
      errorBag (validate G name value this).2 !! other = errorBag this !! other.
Proof.
  intros Hchain Hall. rewrite validate_unfold, Hchain.
  destruct (forEach_sync G name value rules answers (JBool true)
              (withBag (ErrorBag.remove name) this) Hall)
    as (Hres & Hloc & Hval & Hent & Hother).
  repeat split; try done.
  - rewrite Hent. unfold ErrorBag.entries, ErrorBag.remove. simpl.
    by rewrite lookup_delete_eq.
  - intros other Hne. rewrite (Hother other Hne). simpl.
    unfold ErrorBag.remove. by rewrite lookup_delete_ne.
Qed.

(** C1.  For a field whose attached chain consists of synchronous rules (each
    registered with a predicate that does not answer with a promise, a falsy
    answer finding the formatter its error entry needs), [validate] returns
    the answer of the last rule of the chain, whatever the earlier rules
    answered, and [true] when the chain is empty. *)
Theorem validate_returns_last (name : string) (value : jsval)
  (rules : list RuleSpec.t) (answers : list jsval) (this : Validator) :
  validations this !! name = Some rules →
  Forall2 (runsSync G (locale this) value) rules answers →
  (validate G name value this).1 = Ok (List.last answers (JBool true))
  ∧ (rules = [] → (validate G name value this).1 = Ok (JBool true)).
Proof.
  intros Hchain Hall.
  destruct (validate_sync name value rules answers this Hchain Hall) as [Hres _].
  split; [done|]. intros ->. apply Forall2_nil_inv_l in Hall as ->. exact Hres.
Qed.

(** C10.  For a field name without a chain entry, [validate] throws a
    [TypeError] instead of returning a result. *)
Theorem validate_unattached (name : string) (value : jsval) (this : Validator) :
  validations this !! name = None →
  (validate G name value this).1 = Throw TypeError.
Proof. intros Hnone. by rewrite validate_unfold, Hnone. Qed.

(** C9.  For a chain of two synchronous rules of which exactly one answers
    falsy, [validate] leaves exactly one entry for the field, and its message
    is [fmt(field, params)] for the failing rule, where [fmt] is the active
    locale's formatter, or the English one when the active locale's
    sub-mapping is absent or its entry for the rule is not callable. *)
Theorem validate_one_of_two_fails (name : string) (value : jsval)
  (r1 r2 : RuleSpec.t) (v1 v2 : jsval) (fmt : formatter) (this : Validator) :
  validations this !! name = Some [r1; r2] →
  syncAnswer G value r1 v1 →
  syncAnswer G value r2 v2 →
  truthy v1 = negb (truthy v2) →
  formats G (locale this) (RuleSpec.name (if truthy v1 then r2 else r1)) fmt →
  ErrorBag.entries name (errorBag (validate G name value this).2)
  = [ErrorBag.make name (fmt name (RuleSpec.params (if truthy v1 then r2 else r1)))].
Proof.
  intros Hchain H1 H2 Hone Hfmt.
  apply formatterFor_formats in Hfmt.
  assert (Forall2 (runsSync G (locale this) value) [r1; r2] [v1; v2]) as Hall.
  { repeat constructor; try done; intros Hfalsy.
    - rewrite Hfalsy in Hfmt. by rewrite Hfmt.
    - rewrite Hfalsy in Hone. simpl in Hone. rewrite Hone in Hfmt. by rewrite Hfmt. }
  destruct (validate_sync name value _ _ this Hchain Hall) as (_ & _ & _ & -> & _).
  simpl. destruct (truthy v1), (truthy v2); simpl in Hone; try done; simpl; by rewrite Hfmt.
Qed.

(** Running [validate] never touches the locale or the chains. *)
Lemma recordError_setup name rule this : sameSetup (recordError G name rule this).2 this.
Proof.
  rewrite recordError_spec.
  by destruct (formatterFor G (locale this) (RuleSpec.name rule)).
Qed.

Lemma test_setup name value rule this : sameSetup (test G name value rule this).2 this.
Proof.
  unfold test. destruct (Rules G !! RuleSpec.name rule) as [[p|v]|]; try done.
  pose proof (recordError_setup name rule this) as Hrec.
  unfold bind.
  destruct (p value (RuleSpec.params rule)) as [| |[]|n|s|q]; simpl; try done;
    try (destruct (recordError G name rule this) as [[]]; done).
  - destruct (negb (n =? 0)); simpl; [done|].
    by destruct (recordError G name rule this) as [[]].
  - destruct (negb (String.eqb s "")); simpl; [done|].
    by destruct (recordError G name rule this) as [[]].
Qed.

Lemma forEach_test_setup name value rules :
  ∀ acc this, sameSetup (forEach rules acc (test G name value) this).2 this.
Proof.
  induction rules as [|rule rules IH]; intros acc this; [done|].
  simpl. unfold bind. pose proof (test_setup name value rule this) as Hstep.
  destruct (test G name value rule this) as [[v|e] that]; [|done].
  destruct (IH v that) as [? ?], Hstep as [? ?]. split; simpl in *; congruence.
Qed.

Lemma validate_setup name value this : sameSetup (validate G name value this).2 this.
Proof.
  rewrite validate_unfold. destruct (validations this !! name) as [rules|]; [|done].
  destruct (forEach_test_setup name value rules (JBool true)
              (withBag (ErrorBag.remove name) this)) as [? ?].
  split; simpl in *; congruence.
Qed.

(** What [test] returns and what it leaves for [name] depend on the locale,
    the chains and the entries of [name] only. *)
Lemma recordError_agree name rule a b :
  agreeOn name a b →
  (recordError G name rule a).1 = (recordError G name rule b).1
  ∧ agreeOn name (recordError G name rule a).2 (recordError G name rule b).2.
Proof.
  intros [[Hloc Hval] Hbag]. rewrite !recordError_spec, Hloc.
  destruct (formatterFor G (locale b) (RuleSpec.name rule)) as [f|]; simpl; [|done].
  repeat split; try done. simpl. unfold ErrorBag.add.
  by rewrite !lookup_insert_eq, Hbag.
Qed.

Lemma test_agree name value rule a b :
  agreeOn name a b →
  (test G name value rule a).1 = (test G name value rule b).1
  ∧ agreeOn name (test G name value rule a).2 (test G name value rule b).2.
Proof.
  intros Hagree. unfold test.
  destruct (Rules G !! RuleSpec.name rule) as [[p|v]|]; try done.
  destruct (recordError_agree name rule a b Hagree) as [Hres Hnext].
  assert (∀ v : jsval, ((recordError G name rule >> ret v) a).1 = ((recordError G name rule >> ret v) b).1
             ∧ agreeOn name ((recordError G name rule >> ret v) a).2
                 ((recordError G name rule >> ret v) b).2) as Hrec.
  { intros v. unfold bind.
    destruct (recordError G name rule a) as [[[]|e] a'],
             (recordError G name rule b) as [[[]|e'] b']; simpl in *; by simplify_eq. }
  assert (∀ v : jsval, ((ret tt >> ret v) a).1 = ((ret tt >> ret v) b).1
             ∧ agreeOn name ((ret tt >> ret v) a).2 ((ret tt >> ret v) b).2) as Hret.
  { done. }
  destruct (p value (RuleSpec.params rule)) as [| |[]|n|s|q]; simpl; try done.
  - by destruct (negb (n =? 0)).
  - by destruct (negb (String.eqb s "")).
Qed.

Lemma forEach_test_agree name value rules :
  ∀ acc a b, agreeOn name a b →
  (forEach rules acc (test G name value) a).1 = (forEach rules acc (test G name value) b).1
  ∧ agreeOn name (forEach rules acc (test G name value) a).2
      (forEach rules acc (test G name value) b).2.
Proof.
  induction rules as [|rule rules IH]; intros acc a b Hagree; [done|].
  simpl. unfold bind.
  destruct (test_agree name value rule a b Hagree) as [Hres Hnext].
  destruct (test G name value rule a) as [[v|e] a'],
           (test G name value rule b) as [[v'|e'] b']; simpl in *; try done.
  simplify_eq. by apply IH.
Qed.

(** Two validators with the same locale and chains, whatever their error
    bags, get the same result and the same entries for [name] from
    [validate]. *)
Lemma validate_agree name value a b :
  sameSetup a b →
  (validate G name value a).1 = (validate G name value b).1
  ∧ agreeOn name (validate G name value a).2 (validate G name value b).2.
Proof.
  intros [Hloc Hval]. rewrite !validate_unfold, Hval.
  assert (agreeOn name (withBag (ErrorBag.remove name) a) (withBag (ErrorBag.remove name) b))
    as Hagree.
  { repeat split; try done. simpl. unfold ErrorBag.remove. by rewrite !lookup_delete_eq. }
  destruct (validations b !! name) as [rules|]; [|done].
  by apply forEach_test_agree.
Qed.

(** Whatever the chain, the result of [validate] and the entries it leaves
    for the field on return are the same whatever the error bag held before,
    also after an earlier call on the same field. *)
Lemma validate_entries_ignore_bag (name : string) (value : jsval) (this : Validator) :
  (∀ bag,
     (validate G name value (withBag (λ _, bag) this)).1 = (validate G name value this).1
     ∧ ErrorBag.entries name (errorBag (validate G name value (withBag (λ _, bag) this)).2)
       = ErrorBag.entries name (errorBag (validate G name value this).2))
  ∧ (∀ earlier,
     ErrorBag.entries name
       (errorBag (validate G name value (validate G name earlier this).2).2)
     = ErrorBag.entries name (errorBag (validate G name value this).2)).
Proof.
  split.
  - intros bag.
    destruct (validate_agree name value (withBag (λ _, bag) this) this) as [Hres [_ Hbag]];
      [done|].
    split; [done|]. unfold ErrorBag.entries. by rewrite Hbag.
  - intros earlier.
    destruct (validate_agree name value (validate G name earlier this).2 this)
      as [_ [_ Hbag]]; [apply validate_setup|].
    unfold ErrorBag.entries. by rewrite Hbag.
Qed.


Lemma passEntries_length (loc field : string) (value : jsval)
  (rules : list RuleSpec.t) (answers : list jsval) :
  Forall2 (runsSync G loc value) rules answers →
  length (passEntries G loc field rules answers) = failures answers.
Proof.
  unfold failures. induction 1 as [|rule v rules answers [_ Hfmt] Hrest IH]; [done|].
  simpl passEntries. rewrite length_app, IH.
  destruct (truthy v) eqn:E.
  - by rewrite filter_cons_False by (rewrite E; done).
  - rewrite filter_cons_True by done. by destruct (Hfmt eq_refl) as [f ->].
Qed.

(** C6, as amended.  [validate] removes the field's entries before it runs
    the chain: on return from a pass over a chain of synchronous rules the
    field's entries are exactly the entries of the rules that answered falsy
    in this pass, one for each, whatever the error bag held before and
    whatever an earlier call on the field did; so two calls never duplicate
    or accumulate the entries that synchronous rules record. *)
Theorem validate_entries_are_the_pass (name : string) (value : jsval)
  (rules : list RuleSpec.t) (answers : list jsval) (this : Validator) :
  validations this !! name = Some rules →
  Forall2 (runsSync G (locale this) value) rules answers →
  (∀ bag,
     ErrorBag.entries name (errorBag (validate G name value (withBag (λ _, bag) this)).2)
     = passEntries G (locale this) name rules answers)
  ∧ (∀ earlier,
     ErrorBag.entries name
       (errorBag (validate G name value (validate G name earlier this).2).2)
     = passEntries G (locale this) name rules answers)
  ∧ length (passEntries G (locale this) name rules answers) = failures answers.
Proof.
  intros Hchain Hall. split; [|split].
  - intros bag.
    by destruct (validate_sync name value rules answers (withBag (λ _, bag) this)
                   Hchain Hall) as (_ & _ & _ & -> & _).
  - intros earlier.
    destruct (validate_setup name earlier this) as [Hloc Hval].
    rewrite <- Hval in Hchain. rewrite <- Hloc in Hall.
    destruct (validate_sync name value rules answers (validate G name earlier this).2
                Hchain Hall) as (_ & _ & _ & -> & _).
    by rewrite Hloc.
  - by eapply passEntries_length.
Qed.

End Validation.

Lemma validate_returns_last_witness :
  let this := attach "name" "min3|required" blank in
  let rules := [RuleSpec.make "min3" None; RuleSpec.make "required" None] in
  validations this !! "name" = Some rules
  ∧ Forall2 (runsSync Sample.registries (locale this) (JStr "ab")) rules
      [JBool false; JBool true]
  ∧ (validate Sample.registries "name" (JStr "ab") this).1 = Ok (JBool true).
Proof.
  intros this rules.
  assert (validations this !! "name" = Some rules) as Hchain by reflexivity.
  assert (Forall2 (runsSync Sample.registries (locale this) (JStr "ab")) rules
            [JBool false; JBool true]) as Hall.
  { constructor; [sample_run Sample.min3|].
    constructor; [sample_run Sample.required|]. constructor. }
  split; [exact Hchain|]. split; [exact Hall|].
  exact (proj1 (validate_returns_last Sample.registries "name" (JStr "ab") rules
                  [JBool false; JBool true] this Hchain Hall)).
Defined.

Lemma validate_unattached_witness :
  let this := detach "email" (attach "email" "required" blank) in
  validations this !! "email" = None
  ∧ (validate Sample.registries "email" (JStr "a@b.c") this).1 = Throw TypeError.
Proof.
  intros this.
  assert (validations this !! "email" = None) as Hnone by reflexivity.
  split; [exact Hnone|].
  exact (validate_unattached Sample.registries "email" (JStr "a@b.c") this Hnone).
Defined.

(** Under the locale [fr], whose entry for [min3] is a string, the message of
    the failing [min3] is the English one. *)
Lemma validate_one_of_two_fails_witness :
  let this := setLocale "fr" (attach "name" "min3|required" blank) in
  let english : formatter := λ field _, "The " +:+ field +:+ " is too short." in
  validations this !! "name" = Some [RuleSpec.make "min3" None; RuleSpec.make "required" None]
  ∧ syncAnswer Sample.registries (JStr "ab") (RuleSpec.make "min3" None) (JBool false)
  ∧ syncAnswer Sample.registries (JStr "ab") (RuleSpec.make "required" None) (JBool true)
  ∧ formats Sample.registries "fr" "min3" english
  ∧ ErrorBag.entries "name"
      (errorBag (validate Sample.registries "name" (JStr "ab") this).2)
    = [ErrorBag.make "name" "The name is too short."].
Proof.
  intros this english.
  assert (validations this !! "name"
          = Some [RuleSpec.make "min3" None; RuleSpec.make "required" None]) as Hchain
    by reflexivity.
  assert (syncAnswer Sample.registries (JStr "ab") (RuleSpec.make "min3" None) (JBool false))
    as H1 by sample_answer Sample.min3.
  assert (syncAnswer Sample.registries (JStr "ab") (RuleSpec.make "required" None) (JBool true))
    as H2 by sample_answer Sample.required.
  assert (formats Sample.registries "fr" "min3" english) as Hfmt.
  { right. split.
    - intros g (sub & Hsub & Hg). vm_compute in Hsub. injection Hsub as <-.
      vm_compute in Hg. discriminate.
    - exists Sample.en. split; reflexivity. }
  repeat (split; [assumption|]).
  exact (validate_one_of_two_fails Sample.registries "name" (JStr "ab")
           (RuleSpec.make "min3" None) (RuleSpec.make "required" None)
           (JBool false) (JBool true) english this Hchain H1 H2 eq_refl Hfmt).
Defined.

(** Validating the same field twice leaves the entries of the second pass. *)
Example validate_twice :
  let this := attach "name" "min3|required" blank in
  let once := (validate Sample.registries "name" (JStr "") this).2 in
  let twice := (validate Sample.registries "name" (JStr "ab") once).2 in
  ErrorBag.entries "name" (errorBag once)
  = [ErrorBag.make "name" "The name is too short."; ErrorBag.make "name" "The name is required."]
  ∧ ErrorBag.entries "name" (errorBag twice) = [ErrorBag.make "name" "The name is too short."].
Proof. split; reflexivity. Qed.

Lemma validate_entries_are_the_pass_witness :
  let this := attach "name" "min3|required" blank in
  let rules := [RuleSpec.make "min3" None; RuleSpec.make "required" None] in
  let stale : gmap string (list ErrorBag.Entry) :=
    {[ "name" := [ErrorBag.make "name" "stale"; ErrorBag.make "name" "stale"] ]} in
  validations this !! "name" = Some rules
  ∧ Forall2 (runsSync Sample.registries (locale this) (JStr "ab")) rules
      [JBool false; JBool true]
  ∧ ErrorBag.entries "name"
      (errorBag (validate Sample.registries "name" (JStr "ab")
                   (withBag (λ _, stale) this)).2)
    = [ErrorBag.make "name" "The name is too short."]
  ∧ ErrorBag.entries "name"
      (errorBag (validate Sample.registries "name" (JStr "ab")
                   (validate Sample.registries "name" (JStr "") this).2).2)
    = [ErrorBag.make "name" "The name is too short."].
Proof.
  intros this rules stale.
  assert (validations this !! "name" = Some rules) as Hchain by reflexivity.
  assert (Forall2 (runsSync Sample.registries (locale this) (JStr "ab")) rules
            [JBool false; JBool true]) as Hall.
  { constructor; [sample_run Sample.min3|].
    constructor; [sample_run Sample.required|]. constructor. }
  split; [exact Hchain|]. split; [exact Hall|].
  destruct (validate_entries_are_the_pass Sample.registries "name" (JStr "ab") rules
              [JBool false; JBool true] this Hchain Hall) as (Hbag & Hearlier & _).
  split; [exact (Hbag stale)|exact (Hearlier (JStr ""))].
Defined.

(** C6, as stated, fails for a chain with an asynchronous rule: [validate] is
    called twice on a field whose chain is the asynchronous [probe]; each call
    returns its own promise and leaves no entry.  When the two promises are
    then fulfilled with a failing result, the field has two entries, one from
    each call, while the second call alone accounts for one. *)
Lemma validate_twice_async_accumulates :
  let this := attach "name" "probe" blank in
  let rule := RuleSpec.make "probe" None in
  let failing := [SubCheck.make false] in
  let first := validate Demo.probing "name" (JNum 1) this in
  let second := validate Demo.probing "name" (JNum 2) first.2 in
  let alone := validate Demo.probing "name" (JNum 2) this in
  first.1 = Ok (JPromise (Chained (Made 1) "name" rule))
  ∧ second.1 = Ok (JPromise (Chained (Made 2) "name" rule))
  ∧ alone.1 = Ok (JPromise (Chained (Made 2) "name" rule))
  ∧ ErrorBag.entries "name" (errorBag second.2) = []
  ∧ ∃ settle1 settle2,
      fulfil Demo.probing (Chained (Made 1) "name" rule) failing = Some settle1
      ∧ fulfil Demo.probing (Chained (Made 2) "name" rule) failing = Some settle2
      ∧ ErrorBag.entries "name" (errorBag (settle2 (settle1 second.2).2).2)
        = [ErrorBag.make "name" "The name was refused.";
           ErrorBag.make "name" "The name was refused."]
      ∧ ErrorBag.entries "name" (errorBag (settle2 alone.2).2)
        = [ErrorBag.make "name" "The name was refused."]
      ∧ ErrorBag.entries "name" (errorBag (settle2 (settle1 second.2).2).2)
        ≠ ErrorBag.entries "name" (errorBag (settle2 alone.2).2).
Proof.
  intros this rule failing first second alone.
  do 4 (split; [reflexivity|]).
  eexists _, _. do 4 (split; [reflexivity|]).
  vm_compute. discriminate.
Qed.



(** ** Validating several fields *)

Lemma forEach_snoc {St A T} (body : A → Exec St T) (x : A) (xs : list A) :
  ∀ (acc : T) (s : St),
  forEach (xs ++ [x]) acc body s = (forEach xs acc body >> body x) s.
Proof.
  induction xs as [|y xs IH]; intros acc s; simpl; unfold bind, ret.
  - by destruct (body x s) as [[a|e] s'].
  - destruct (body y s) as [[a|e] s']; [|done]. by rewrite IH.
Qed.

Section ValidateAll.

Variable G : Registries.

Lemma validateAll_unfold (values : list (string * jsval)) (this : Validator) :
  validateAll G values this =
    forEach values (JBool true) (λ '(property, value), validate G property value)
      (withBag ErrorBag.clear this).
Proof. reflexivity. Qed.

(** C2.  [validateAll] empties the error bag and then validates the fields in
    the order of the mapping's keys: with no key it returns [true] on the
    emptied bag, nothing the bag held before the call has any influence, and
    with a last key it returns what [validate] returns for that key, run
    after the earlier keys.  So the result is the last field's, not a
    conjunction: when [a] and [b] both have the chain ["required"], [a] fails
    and [b] passes, the result is [true] and [a] has its error entry. *)
Theorem validateAll_last_field (this : Validator) :
  validateAll G [] this = (Ok (JBool true), withBag ErrorBag.clear this)
  ∧ (∀ values bag,
       validateAll G values (withBag (λ _, bag) this) = validateAll G values this)
  ∧ (∀ values property value,
       validateAll G (values ++ [(property, value)]) this
       = (validateAll G values >> validate G property value) this)
  ∧ (∀ a b va vb p fmt,
       a ≠ b →
       validations this !! a = Some [RuleSpec.make "required" None] →
       validations this !! b = Some [RuleSpec.make "required" None] →
       Rules G !! "required" = Some (Fn p) →
       p va None = JBool false →
       p vb None = JBool true →
       formats G (locale this) "required" fmt →
       (validateAll G [(a, va); (b, vb)] this).1 = Ok (JBool true)
       ∧ ErrorBag.entries a (errorBag (validateAll G [(a, va); (b, vb)] this).2)
         = [ErrorBag.make a (fmt a None)]).
Proof.
  split; [done|]. split; [done|]. split.
  - intros values property value.
    exact (forEach_snoc (λ '(property, value), validate G property value)
             (property, value) values (JBool true) (withBag ErrorBag.clear this)).
  - intros a b va vb p fmt Hne Ha Hb Hp Hfail Hpass Hfmt.
    apply formatterFor_formats in Hfmt.
    rewrite validateAll_unfold. simpl. unfold bind.
    set (s0 := withBag ErrorBag.clear this).
    assert (Forall2 (runsSync G (locale s0) va) [RuleSpec.make "required" None] [JBool false])
      as Hall1.
    { repeat constructor; [exists p; by repeat split|]. intros _. simpl. by rewrite Hfmt. }
    destruct (validate_sync G a va _ _ s0 Ha Hall1) as (Hres1 & Hloc1 & Hval1 & Hent1 & _).
    destruct (validate G a va s0) as [res1 s1]. simpl in Hres1, Hloc1, Hval1, Hent1.
    subst res1.
    assert (Forall2 (runsSync G (locale s1) vb) [RuleSpec.make "required" None] [JBool true])
      as Hall2.
    { repeat constructor; [exists p; by repeat split|]. done. }
    rewrite <- Hval1 in Hb.
    destruct (validate_sync G b vb _ _ s1 Hb Hall2) as (Hres2 & _ & _ & _ & Hother).
    destruct (validate G b vb s1) as [res2 s2]. simpl in Hres2, Hother. subst res2.
    simpl. split; [done|].
    unfold ErrorBag.entries in *. rewrite (Hother a Hne), Hent1. simpl.
    by rewrite Hfmt.
Qed.

End ValidateAll.

Lemma validateAll_last_field_witness :
  let this := attach "b" "required" (attach "a" "required" blank) in
  let message : formatter := λ field _, "The " +:+ field +:+ " is required." in
  "a" ≠ "b"
  ∧ validations this !! "a" = Some [RuleSpec.make "required" None]
  ∧ validations this !! "b" = Some [RuleSpec.make "required" None]
  ∧ Rules Sample.registries !! "required" = Some (Fn Sample.required)
  ∧ Sample.required (JStr "") None = JBool false
  ∧ Sample.required (JStr "2") None = JBool true
  ∧ formats Sample.registries (locale this) "required" message
  ∧ (validateAll Sample.registries [("a", JStr ""); ("b", JStr "2")] this).1 = Ok (JBool true)
  ∧ ErrorBag.entries "a"
      (errorBag (validateAll Sample.registries [("a", JStr ""); ("b", JStr "2")] this).2)
    = [ErrorBag.make "a" "The a is required."].
Proof.
  intros this message.
  assert ("a" ≠ "b") as Hne by discriminate.
  assert (validations this !! "a" = Some [RuleSpec.make "required" None]) as Ha by reflexivity.
  assert (validations this !! "b" = Some [RuleSpec.make "required" None]) as Hb by reflexivity.
  assert (Rules Sample.registries !! "required" = Some (Fn Sample.required)) as Hp
    by reflexivity.
  assert (formats Sample.registries (locale this) "required" message) as Hfmt.
  { left. exists Sample.en. split; reflexivity. }
  do 7 (split; [first [assumption | reflexivity]|]).
  exact (proj2 (proj2 (proj2 (validateAll_last_field Sample.registries this)))
           "a" "b" (JStr "") (JStr "2") Sample.required message
           Hne Ha Hb Hp eq_refl eq_refl Hfmt).
Defined.

(** ** Asynchronous rules *)

Lemma reduce_valid (values : list SubCheck.t) :
  ∀ init, fold_left (λ prev curr, prev && SubCheck.valid curr) values init
          = init && forallb SubCheck.valid values.
Proof.
  induction values as [|x values IH]; intros init; simpl.
  - by rewrite andb_true_r.
  - by rewrite IH, andb_assoc.
Qed.

(** C3.  When the predicate of a rule answers with a promise, [test] returns
    the promise chained on it and records nothing yet.  Once the predicate's
    promise is fulfilled with [values], the chained promise is fulfilled with
    the conjunction of the [valid] flags ([true] for no entry), and the
    validator it finds then gets exactly one more entry for the field,
    formatted for the rule, when the conjunction is false, and none when it is
    true. *)
Theorem test_async (G : Registries) (name : string) (value : jsval) (rule : RuleSpec.t)
  (p : predicate) (q : promise) (this : Validator) :
  Rules G !! RuleSpec.name rule = Some (Fn p) →
  p value (RuleSpec.params rule) = JPromise q →
  test G name value rule this = (Ok (JPromise (Chained q name rule)), this)
  ∧ ∀ (G' : Registries) (values : list SubCheck.t) (later : Validator) (fmt : formatter),
      (forallb SubCheck.valid values = false →
       formats G' (locale later) (RuleSpec.name rule) fmt) →
      ∃ callback,
        fulfil G' (Chained q name rule) values = Some callback
        ∧ (callback later).1 = Ok (JBool (forallb SubCheck.valid values))
        ∧ extendsAt name
            (if forallb SubCheck.valid values then []
             else [ErrorBag.make name (fmt name (RuleSpec.params rule))])
            later (callback later).2.
Proof.
  intros Hp Hq. split.
  - unfold test. by rewrite Hp, Hq.
  - intros G' values later fmt Hfmt. eexists. split; [reflexivity|].
    unfold onResolved, bind. rewrite reduce_valid. simpl.
    destruct (forallb SubCheck.valid values) eqn:Eall; simpl.
    + split; [done|]. apply extendsAt_refl.
    + specialize (Hfmt eq_refl). apply formatterFor_formats in Hfmt.
      rewrite recordError_spec, Hfmt. simpl. split; [done|]. apply extendsAt_add.
Qed.

Lemma test_async_witness :
  let this := attach "name" "remote" blank in
  let rule := RuleSpec.make "remote" None in
  let values := [SubCheck.make true; SubCheck.make false] in
  let refused : formatter := λ field _, "The " +:+ field +:+ " was refused." in
  Rules Sample.registries !! "remote" = Some (Fn Sample.remote)
  ∧ Sample.remote (JStr "x") None = JPromise (Made 0)
  ∧ (forallb SubCheck.valid values = false →
     formats Sample.registries (locale this) "remote" refused)
  ∧ test Sample.registries "name" (JStr "x") rule this
    = (Ok (JPromise (Chained (Made 0) "name" rule)), this)
  ∧ ∃ callback,
      fulfil Sample.registries (Chained (Made 0) "name" rule) values = Some callback
      ∧ (callback this).1 = Ok (JBool false)
      ∧ ErrorBag.entries "name" (errorBag (callback this).2)
        = [ErrorBag.make "name" "The name was refused."].
Proof.
  intros this rule values refused.
  assert (Rules Sample.registries !! "remote" = Some (Fn Sample.remote)) as Hp by reflexivity.
  assert (Sample.remote (JStr "x") None = JPromise (Made 0)) as Hq by reflexivity.
  assert (forallb SubCheck.valid values = false →
          formats Sample.registries (locale this) "remote" refused) as Hfmt.
  { intros _. left. exists Sample.en. split; reflexivity. }
  destruct (test_async Sample.registries "name" (JStr "x") rule Sample.remote (Made 0)
              this Hp Hq) as [Hnow Hlater].
  destruct (Hlater Sample.registries values this refused Hfmt)
    as (callback & Hcb & Hres & _ & _ & Hent & _).
  repeat (split; [assumption|]).
  exists callback. split; [exact Hcb|]. split; [exact Hres|]. exact Hent.
Defined.

(** ** The extension contract *)

Lemma guardExtend_state name validator R : (guardExtend name validator R).2 = R.
Proof.
  unfold guardExtend, bind, read. simpl.
  destruct (match Rules R !! name with Some m => truthyM m | None => false end); [done|].
  destruct validator as [f|o]; [done|].
  destruct (negb (String.eqb (typeofM (Ext.validate o)) "function")); [done|].
  by destruct (negb (String.eqb (typeofM (Ext.getMessage o)) "function")
               && negb (String.eqb (Ext.typeofMessages (Ext.messages o)) "object")).
Qed.

(** A registered name is refused, whatever is offered under it. *)
Lemma guardExtend_registered name validator R m :
  Rules R !! name = Some (Fn m) →
  ∃ msg, guardExtend name validator R = (Throw (ValidatorException msg), R).
Proof. intros H. unfold guardExtend, bind, read. simpl. rewrite H. simpl. eauto. Qed.

(** For a free name, and as long as the [messages] property is not [null],
    the guard lets through exactly the well-formed validators. *)
Lemma guardExtend_free name validator R :
  Rules R !! name = None →
  (∀ o, validator = Ext.Object o → Ext.messages o ≠ Ext.MsgNull) →
  if wellFormed validator then guardExtend name validator R = (Ok tt, R)
  else ∃ msg, guardExtend name validator R = (Throw (ValidatorException msg), R).
Proof.
  intros Hfree Hnull. unfold guardExtend, bind, read. simpl. rewrite Hfree.
  destruct validator as [f|[[v|w] [g|u] [| |entries]]]; simpl; eauto;
    try (by destruct w; simpl; eauto); try (by destruct u; simpl; eauto).
  all: by destruct (Hnull _ eq_refl).
Qed.

(** A guard that throws keeps [extend] from writing anything. *)
Lemma extend_refused name validator R e :
  (guardExtend name validator R).1 = Throw e → extend name validator R = (Throw e, R).
Proof.
  intros H. unfold extend, bind. pose proof (guardExtend_state name validator R) as Hst.
  destruct (guardExtend name validator R) as [[[]|e'] R']; simpl in *; by simplify_eq.
Qed.

Lemma forEach_invariant {St A T} (P : St → Prop) (body : A → Exec St T) :
  (∀ x s, P s → P (body x s).2) →
  ∀ xs acc s, P s → P (forEach xs acc body s).2.
Proof.
  intros Hbody. induction xs as [|x xs IH]; intros acc s Hs; [done|].
  simpl. unfold bind. specialize (Hbody x s Hs).
  destruct (body x s) as [[a|e] s']; [by apply IH|done].
Qed.

Lemma setMessage_rules locale name v R : Rules (setMessage locale name v R).2 = Rules R.
Proof. unfold setMessage. by destruct (Messages R !! locale). Qed.

Lemma ensureLocale_rules locale R : Rules (ensureLocale locale R).2 = Rules R.
Proof. unfold ensureLocale. by destruct (Messages R !! locale). Qed.

(** [merge] writes the offered predicate under the name, and no later step
    of it touches the rules. *)
Lemma merge_registers name validator R :
  Rules (merge name validator R).2 !! name
  = Some match validator with
         | Ext.Function f => Fn f
         | Ext.Object o => Ext.validate o
         end.
Proof.
  destruct validator as [f|o]; unfold merge, bind, update.
  - rewrite setMessage_rules. simpl. apply lookup_insert_eq.
  - set (R1 := setRule name (Ext.validate o) R).
    assert (Rules R1 !! name = Some (Ext.validate o)) as H1 by apply lookup_insert_eq.
    assert (Rules (match Ext.getMessage o with
                   | Fn g => setMessage "en" name (Fn g)
                   | Val _ => ret ()
                   end R1).2 = Rules R1) as H2.
    { destruct (Ext.getMessage o); [apply setMessage_rules|done]. }
    destruct (match Ext.getMessage o with
              | Fn g => setMessage "en" name (Fn g)
              | Val _ => ret ()
              end R1) as [[[]|e] R2]; cbn [snd] in H2 |- *; [|by rewrite H2].
    rewrite <- H2 in H1.
    destruct (Ext.messages o) as [| |entries]; try done.
    apply (forEach_invariant (λ R', Rules R' !! name = Some (Ext.validate o))); [|done].
    intros [locale msg] R' HR'. unfold bind.
    pose proof (ensureLocale_rules locale R') as He.
    destruct (ensureLocale locale R') as [[[]|e] R'']; simpl in He |- *; [|by rewrite He].
    by rewrite setMessage_rules, He.
Qed.

(** After an [extend] that went through, every further [extend] under the
    same name is refused and writes nothing. *)
Lemma extend_twice name validator R R' again :
  extend name validator R = (Ok tt, R') →
  ∃ msg, extend name again R' = (Throw (ValidatorException msg), R').
Proof.
  intros Hfirst.
  assert (∃ m, Rules R' !! name = Some (Fn m)) as [m Hm].
  { pose proof (merge_registers name validator R) as Hreg.
    pose proof (guardExtend_state name validator R) as Hst.
    unfold extend, bind in Hfirst.
    destruct (guardExtend name validator R) as [[[]|e] R0] eqn:Hguard; [|done].
    simpl in Hst. subst R0. rewrite Hfirst in Hreg. simpl in Hreg.
    destruct validator as [f|o]; [eauto|].
    unfold guardExtend, bind, read in Hguard. simpl in Hguard.
    destruct (match Rules R !! name with Some m => truthyM m | None => false end);
      [done|].
    destruct (Ext.validate o) as [f|v]; [eauto|].
    simpl in Hguard. by rewrite typeof_not_function in Hguard. }
  destruct (guardExtend_registered name again R' m Hm) as [msg Hguard].
  exists msg. apply extend_refused. by rewrite Hguard.
Qed.

(** C8.  The guard lets an object through whose [messages] property is [null]
    and which has no [getMessage]: [extend] does not throw, registers the
    predicate, and no formatter exists for the new rule. *)
Theorem extend_null_messages (f : predicate) (language : string) :
  let offered := Ext.Object (Ext.mkObject (Fn f) (Val JUndefined) Ext.MsgNull) in
  let R := mkRegistries ∅ {[ "en" := ∅ ]} in
  wellFormed offered = false
  ∧ extend "newrule" offered R = (Ok tt, setRule "newrule" (Fn f) R)
  ∧ formatterFor (extend "newrule" offered R).2 language "newrule" = None.
Proof.
  intros offered R.
  assert (extend "newrule" offered R = (Ok tt, setRule "newrule" (Fn f) R)) as Hrun
    by reflexivity.
  split; [reflexivity|]. split; [exact Hrun|]. rewrite Hrun.
  unfold formatterFor. simpl.
  destruct (decide (language = "en")) as [->|Hne].
  - by rewrite lookup_singleton_eq.
  - by rewrite lookup_singleton_ne, lookup_singleton_eq.
Qed.

(** * Further properties *)

(** ** Loops *)

Lemma forEach_abort {St A T} (body : A → Exec St T) (bad : A) (post : list A) (e : exn) :
  ∀ (pre : list A) (acc a : T) (s s1 s2 : St),
  forEach pre acc body s = (Ok a, s1) →
  body bad s1 = (Throw e, s2) →
  forEach (pre ++ bad :: post) acc body s = (Throw e, s2).
Proof.
  induction pre as [|x pre IH]; intros acc a s s1 s2 Hpre Hbad; simpl in *.
  - unfold ret in Hpre. simplify_eq. unfold bind. by rewrite Hbad.
  - unfold bind in *. destruct (body x s) as [[b|e'] s']; [|done]. by eapply IH.
Qed.

Lemma forEach_invariant_in {St A T} (P : St → Prop) (body : A → Exec St T) (xs : list A) :
  (∀ x s, x ∈ xs → P s → P (body x s).2) →
  ∀ acc s, P s → P (forEach xs acc body s).2.
Proof.
  induction xs as [|x xs IH]; intros Hbody acc s Hs; [done|].
  simpl. unfold bind.
  pose proof (Hbody x s ltac:(left) Hs) as Hx.
  destruct (body x s) as [[a|e] s']; [|done].
  apply IH; [|done]. intros y t Hy. apply Hbody. by right.
Qed.

(** ** Attaching fields and building validators *)

(** X1.  [attach] gives the field the chain parsed from the expression,
    whatever chain it had, and that chain is never empty; it drops the
    field's error entries; every other field keeps its chain and its entries,
    and the locale stays. *)
Theorem attach_installs_chain (name checks : string) (this : Validator) :
  validations (attach name checks this) !! name = Some (parseExpression checks)
  ∧ parseExpression checks ≠ []
  ∧ delete name (validations (attach name checks this)) = delete name (validations this)
  ∧ ErrorBag.entries name (errorBag (attach name checks this)) = []
  ∧ delete name (errorBag (attach name checks this)) = delete name (errorBag this)
  ∧ locale (attach name checks this) = locale this.
Proof.
  rewrite attach_spec. simpl. unfold parseExpression, ErrorBag.entries, ErrorBag.remove.
  repeat split.
  - apply lookup_insert_eq.
  - pose proof (split_nonempty "|" checks). by destruct (Str.split "|" checks).
  - apply delete_insert_eq.
  - by rewrite lookup_delete_eq.
  - apply delete_delete_eq.
Qed.

(** X2.  Only the last [attach] of a field counts: attaching over an earlier
    attachment, or after a [detach] of the field, gives the validator that
    the last [attach] alone gives. *)
Theorem attach_overrides (name earlier checks : string) (this : Validator) :
  attach name checks (attach name earlier this) = attach name checks this
  ∧ attach name checks (detach name this) = attach name checks this.
Proof.
  rewrite !attach_spec. unfold detach, ErrorBag.remove. simpl. split; f_equal.
  - apply insert_insert_eq.
  - apply delete_delete_eq.
  - apply insert_delete_eq.
Qed.

(** One turn of the inner loop of [normalize] writes to its own property
    only, whether it throws or not. *)
Lemma normalize_push_other (property k : string) (r : RuleSpec.t)
  (normalized : gmap string (list RuleSpec.t)) :
  k ≠ property →
  ((ensureChain property >> pushChain property r) normalized).2 !! k = normalized !! k.
Proof.
  intros Hne. unfold bind, ensureChain, pushChain.
  destruct (normalized !! property) as [chain|] eqn:E; simpl.
  - rewrite E. simpl. by rewrite lookup_insert_ne.
  - destruct (Proto.inherited property); simpl.
    + by rewrite E.
    + rewrite lookup_insert_eq. simpl. by rewrite !lookup_insert_ne.
Qed.

(** The outer loop of [normalize], from any accumulated mapping: a property
    that is not listed keeps what it had. *)
Lemma normalize_unlisted (entries : list (string * string)) :
  ∀ (acc : gmap string (list RuleSpec.t)) (k : string),
  k ∉ entries.*1 →
  (forEach_ entries (λ '(property, expr),
     forEach_ (Str.split "|" expr) (λ rule,
       ensureChain property >> pushChain property (normalizeRule rule))) acc).2 !! k
  = acc !! k.
Proof.
  intros acc k Hk. unfold forEach_ at 1.
  apply (forEach_invariant_in (λ normalized, normalized !! k = acc !! k)); [|done].
  intros [k0 e0] normalized Hin Hsame.
  assert (k ≠ k0) as Hne.
  { intros ->. apply Hk. apply list_elem_of_fmap. by exists (k0, e0). }
  unfold forEach_.
  apply (forEach_invariant (λ normalized, normalized !! k = acc !! k)); [|done].
  intros rule normalized' Hsame'. by rewrite normalize_push_other.
Qed.

(** The same loop over properties that [{}] does not inherit: it completes,
    and with distinct properties a listed one gets the parsed expression
    appended to what it had. *)
Lemma normalize_listed (entries : list (string * string)) :
  ∀ (acc : gmap string (list RuleSpec.t)),
  Forall (λ k, Proto.inherited k = false) entries.*1 →
  (forEach_ entries (λ '(property, expr),
     forEach_ (Str.split "|" expr) (λ rule,
       ensureChain property >> pushChain property (normalizeRule rule))) acc).1 = Ok tt
  ∧ (NoDup entries.*1 → ∀ k e, (k, e) ∈ entries →
     (forEach_ entries (λ '(property, expr),
        forEach_ (Str.split "|" expr) (λ rule,
          ensureChain property >> pushChain property (normalizeRule rule))) acc).2 !! k
     = Some (default [] (acc !! k) ++ parseExpression e)).
Proof.
  induction entries as [|[k0 e0] entries IH]; intros acc Hown.
  - split; [done|]. intros _ k e Hin. by apply elem_of_nil in Hin.
  - apply Forall_cons in Hown as [Hown0 Hown]. simpl in Hown0.
    rewrite forEach__cons, normalize_field by done.
    destruct (IH (<[k0 := default [] (acc !! k0) ++ map normalizeRule (Str.split "|" e0)]> acc)
                Hown) as [Hok Hin].
    split; [done|].
    intros [Hfresh Hdup]%NoDup_cons k e [[= -> ->]|Hmem]%elem_of_cons.
    + rewrite normalize_unlisted by done. by rewrite lookup_insert_eq.
    + assert (k ≠ k0) as Hne.
      { intros ->. apply Hfresh. apply list_elem_of_fmap. by exists (k0, e). }
      rewrite (Hin Hdup k e Hmem). by rewrite lookup_insert_ne.
Qed.

(** The same loop reaching a property that [{}] inherits and does not own:
    it throws. *)
Lemma normalize_inherited (entries : list (string * string)) :
  ∀ (acc : gmap string (list RuleSpec.t)),
  (∀ k, Proto.inherited k = true → acc !! k = None) →
  Exists (λ k, Proto.inherited k = true) entries.*1 →
  (forEach_ entries (λ '(property, expr),
     forEach_ (Str.split "|" expr) (λ rule,
       ensureChain property >> pushChain property (normalizeRule rule))) acc).1
  = Throw TypeError.
Proof.
  induction entries as [|[k0 e0] entries IH]; intros acc Hacc Hex.
  - by apply Exists_nil in Hex.
  - rewrite forEach__cons. destruct (Proto.inherited k0) eqn:Hk0.
    + by rewrite normalize_field_inherited by auto.
    + rewrite normalize_field by done. apply IH.
      * intros k Hk. rewrite lookup_insert_ne; [by apply Hacc|]. congruence.
      * apply Exists_cons in Hex as [Hhead|Htail]; [simpl in Hhead; congruence|done].
Qed.

(** X3.  The constructor, on a mapping with distinct field names: when none
    of the names is one that a plain object inherits from [Object.prototype],
    the new validator has locale [en], no errors and, for each field, exactly
    the chain parsed from that field's expression; when one of them is such a
    name ([constructor], [toString], ...), the constructor throws a
    [TypeError].  Without a mapping it builds the validator without
    chains. *)
Theorem normalize_distinct_fields (entries : list (string * string)) :
  NoDup entries.*1 →
  (Forall (λ k, Proto.inherited k = false) entries.*1 →
   create (Some entries)
   = Ok {| locale := "en";
           validations := parseExpression <$> (list_to_map entries : gmap string string);
           errorBag := ∅ |})
  ∧ (Exists (λ k, Proto.inherited k = true) entries.*1 →
     create (Some entries) = Throw TypeError)
  ∧ create None = Ok blank.
Proof.
  intros Hdup. split; [|split; [|done]].
  - intros Hown. unfold create, normalize.
    destruct (normalize_listed entries ∅ Hown) as [Hok Hin].
    pose proof (normalize_unlisted entries ∅) as Hout.
    destruct (forEach_ entries _ ∅) as [res normalized]. simpl in Hok, Hin, Hout.
    subst res. do 2 f_equal. apply map_eq. intros k. rewrite lookup_fmap.
    destruct ((list_to_map entries : gmap string string) !! k) as [e|] eqn:Ek; simpl.
    + apply elem_of_list_to_map in Ek; [|done].
      by rewrite (Hin Hdup k e Ek), lookup_empty.
    + apply not_elem_of_list_to_map in Ek. by rewrite (Hout k Ek), lookup_empty.
  - intros Hex. unfold create, normalize.
    pose proof (normalize_inherited entries ∅ ltac:(done) Hex) as Hthrow.
    destruct (forEach_ entries _ ∅) as [res normalized]. simpl in Hthrow. by subst res.
Qed.

Lemma normalize_distinct_fields_witness :
  let accepted := [("email", "required|min3"); ("name", "min3:x")] in
  let refused := [("name", "required"); ("constructor", "required")] in
  NoDup accepted.*1
  ∧ Forall (λ k, Proto.inherited k = false) accepted.*1
  ∧ NoDup refused.*1
  ∧ Exists (λ k, Proto.inherited k = true) refused.*1
  ∧ create (Some accepted)
    = Ok {| locale := "en";
            validations := {[ "email" := [RuleSpec.make "required" None;
                                          RuleSpec.make "min3" None];
                              "name" := [RuleSpec.make "min3" (Some ["x"])] ]};
            errorBag := ∅ |}
  ∧ create (Some refused) = Throw TypeError.
Proof.
  intros accepted refused.
  assert (NoDup accepted.*1) as Hdup by by apply (bool_decide_unpack _).
  assert (Forall (λ k, Proto.inherited k = false) accepted.*1) as Hown
    by (repeat constructor).
  assert (NoDup refused.*1) as Hdup' by by apply (bool_decide_unpack _).
  assert (Exists (λ k, Proto.inherited k = true) refused.*1) as Hex
    by (right; left; reflexivity).
  do 4 (split; [assumption|]). split.
  - rewrite (proj1 (normalize_distinct_fields accepted Hdup) Hown). reflexivity.
  - exact (proj1 (proj2 (normalize_distinct_fields refused Hdup')) Hex).
Defined.

Lemma forEach__snoc {St A} (x : A) (xs : list A) (body : A → Exec St unit) (s : St) :
  forEach_ (xs ++ [x]) body s =
    match forEach_ xs body s with
    | (Ok _, s') => body x s'
    | (Throw e, s') => (Throw e, s')
    end.
Proof.
  unfold forEach_. rewrite forEach_snoc. unfold bind.
  by destruct (forEach xs () body s) as [[[]|e] s'].
Qed.

(** X4.  When the constructor accepts a mapping, attaching a field that the
    mapping does not mention, under a name that a plain object does not
    inherit, gives exactly the validator that the constructor builds from the
    mapping with that field added at its end. *)
Theorem create_then_attach (entries : list (string * string)) (name checks : string)
  (this : Validator) :
  create (Some entries) = Ok this →
  name ∉ entries.*1 →
  Proto.inherited name = false →
  create (Some (entries ++ [(name, checks)])) = Ok (attach name checks this).
Proof.
  intros Hthis Hfresh Hown. unfold create, normalize in *.
  pose proof (normalize_unlisted entries ∅ name Hfresh) as Hnone.
  rewrite forEach__snoc.
  destruct (forEach_ entries _ ∅) as [[[]|e] normalized]; [|done].
  simpl in Hnone. injection Hthis as <-. cbv beta iota.
  rewrite normalize_field by done. rewrite Hnone, lookup_empty, attach_spec. simpl.
  unfold ErrorBag.remove. by rewrite delete_empty.
Qed.

Lemma create_then_attach_witness :
  let this := attach "email" "required" blank in
  create (Some [("email", "required")]) = Ok this
  ∧ ("name" ∉ [("email", "required")].*1)
  ∧ Proto.inherited "name" = false
  ∧ create (Some [("email", "required"); ("name", "min3|required")])
    = Ok (attach "name" "min3|required" this).
Proof.
  intros this.
  assert (create (Some [("email", "required")]) = Ok this) as Hthis by reflexivity.
  assert ("name" ∉ [("email", "required")].*1) as Hfresh by by apply (bool_decide_unpack _).
  split; [exact Hthis|]. split; [exact Hfresh|]. split; [reflexivity|].
  exact (create_then_attach [("email", "required")] "name" "min3|required" this
           Hthis Hfresh eq_refl).
Defined.

(** ** The expression syntax *)

Section MoreStringFacts.

Variable c : ascii.

Lemma append_empty (s : string) : s +:+ "" = s.
Proof.
  induction s as [|d s IH]; [done|].
  change (String d (s +:+ "") = String d s). by rewrite IH.
Qed.

Lemma before_self_free s : Str.free c (Str.before c s) = true.
Proof.
  induction s as [|d s IH]; simpl; [done|].
  destruct (Ascii.eqb d c) eqn:E; simpl; [done|]. by rewrite E.
Qed.

Lemma free_before d s : Str.free d s = true → Str.free d (Str.before c s) = true.
Proof.
  induction s as [|x s IH]; simpl; [done|].
  intros [Hx Hs]%andb_prop. destruct (Ascii.eqb x c); simpl; [done|].
  by rewrite Hx, IH.
Qed.

Lemma free_after d s : Str.free d s = true → Str.free d (Str.after c s) = true.
Proof.
  induction s as [|x s IH]; simpl; [done|].
  intros [Hx Hs]%andb_prop. destruct (Ascii.eqb x c); [done|]. by apply IH.
Qed.

Lemma before_app a rest : Str.free c a = true → Str.before c (a +:+ String c rest) = a.
Proof.
  induction a as [|d a IH]; simpl.
  - by rewrite Ascii.eqb_refl.
  - destruct (Ascii.eqb d c); simpl; [done|]. intros H. by rewrite IH.
Qed.

Lemma after_app a rest : Str.free c a = true → Str.after c (a +:+ String c rest) = rest.
Proof.
  induction a as [|d a IH]; simpl.
  - by rewrite Ascii.eqb_refl.
  - destruct (Ascii.eqb d c); simpl; [done|]. intros H. by rewrite IH.
Qed.

(** No piece of [s.split(c)] contains [c], and a character missing from [s]
    is missing from every piece. *)
Lemma pieces_free s : Forall (λ w, Str.free c w = true) (Str.split c s).
Proof.
  induction s as [|d s IH]; simpl; [by repeat constructor|].
  destruct (Ascii.eqb d c) eqn:E; [by constructor|].
  destruct (Str.split c s) as [|w ws]; [by repeat constructor; simpl; rewrite E|].
  apply Forall_cons in IH as [Hw Hws]. constructor; [|done]. simpl. by rewrite E, Hw.
Qed.

Lemma free_pieces d s :
  Str.free d s = true → Forall (λ w, Str.free d w = true) (Str.split c s).
Proof.
  induction s as [|x s IH]; simpl; [by repeat constructor|].
  intros [Hx Hs]%andb_prop. specialize (IH Hs).
  destruct (Ascii.eqb x c); [by constructor|].
  destruct (Str.split c s) as [|w ws]; [by repeat constructor; simpl; rewrite Hx|].
  apply Forall_cons in IH as [Hw Hws]. constructor; [|done]. simpl. by rewrite Hx, Hw.
Qed.

Lemma free_join d (xs : list string) :
  Str.free d (String c "") = true →
  Forall (λ w, Str.free d w = true) xs →
  Str.free d (join (String c "") xs) = true.
Proof.
  intros Hsep. induction 1 as [|x xs Hx Hxs IH]; [done|].
  destruct xs as [|y ys]; [done|].
  change (join (String c "") (x :: y :: ys))
    with (x +:+ String c "" +:+ join (String c "") (y :: ys)).
  by rewrite !free_app, Hx, Hsep, IH.
Qed.

(** Splitting what was joined gives the pieces back. *)
Lemma split_join (xs : list string) :
  xs ≠ [] →
  Forall (λ w, Str.free c w = true) xs →
  Str.split c (join (String c "") xs) = xs.
Proof.
  intros Hne Hall. induction Hall as [|x xs Hx Hxs IH]; [done|].
  destruct xs as [|y ys]; [by apply split_free|].
  change (join (String c "") (x :: y :: ys))
    with (x +:+ String c (join (String c "") (y :: ys))).
  rewrite split_app by done. by rewrite IH.
Qed.

End MoreStringFacts.

(** Every rule that [normalizeRule] makes from a piece without ['|'] is
    written as the grammar writes rules. *)
Lemma normalizeRule_grammatical (piece : string) :
  Str.free "|" piece = true → grammatical (normalizeRule piece) = true.
Proof.
  intros Hbar. unfold grammatical, isName.
  destruct (Str.free ":" piece) eqn:Hcolon.
  - rewrite normalizeRule_plain by done. simpl. by rewrite Hbar, Hcolon.
  - rewrite normalizeRule_params by done. simpl.
    rewrite (free_before ":" "|") by done. rewrite before_self_free. simpl.
    apply andb_true_intro. split.
    + apply negb_true_iff, bool_decide_eq_false. apply split_nonempty.
    + apply forallb_forall. intros w Hw.
      set (section := Str.before ":" (Str.after ":" piece)) in *.
      pose proof (pieces_free "," section) as Hcomma.
      pose proof (free_pieces "," ":" section (before_self_free ":" _)) as Hcol.
      pose proof (free_pieces "," "|" section
                    (free_before ":" "|" _ (free_after ":" "|" _ Hbar))) as Hb.
      rewrite Forall_forall in Hcomma, Hcol, Hb.
      apply list_elem_of_In in Hw.
      unfold isToken, isName. by rewrite (Hb w Hw), (Hcol w Hw), (Hcomma w Hw).
Qed.

(** X6.  Whatever the expression, every rule of the parsed chain has a name
    without ['|'] and [':'], and either no parameters or a non-empty list of
    parameters none of which holds ['|'], [':'] or [',']; so do all chains
    that [attach] installs. *)
Theorem parsed_chain_grammatical (expr name : string) (this : Validator) :
  Forall (λ rule, grammatical rule = true) (parseExpression expr)
  ∧ ∃ chain, validations (attach name expr this) !! name = Some chain
             ∧ Forall (λ rule, grammatical rule = true) chain.
Proof.
  assert (Forall (λ rule, grammatical rule = true) (parseExpression expr)) as Hall.
  { unfold parseExpression. apply Forall_fmap.
    eapply Forall_impl; [apply (pieces_free "|" expr)|].
    intros piece Hpiece. by apply normalizeRule_grammatical. }
  split; [done|]. exists (parseExpression expr). split; [|done].
  rewrite attach_spec. simpl. apply lookup_insert_eq.
Qed.

Lemma renderRule_parse (rule : RuleSpec.t) :
  grammatical rule = true →
  normalizeRule (renderRule rule) = rule ∧ Str.free "|" (renderRule rule) = true.
Proof.
  destruct rule as [name [tokens|]]; unfold grammatical, renderRule, isName; simpl.
  - intros [[Hbar Hcolon]%andb_prop [Hne Htokens]%andb_prop]%andb_prop.
    apply negb_true_iff, bool_decide_eq_false in Hne.
    rewrite forallb_forall in Htokens.
    assert (Forall (λ w, Str.free "," w = true) tokens
            ∧ Forall (λ w, Str.free ":" w = true) tokens
            ∧ Forall (λ w, Str.free "|" w = true) tokens) as (Hc & Hcol & Hb).
    { repeat split; apply Forall_forall; intros w Hw%list_elem_of_In;
        specialize (Htokens w Hw); unfold isToken, isName in Htokens;
        by apply andb_prop in Htokens as [[? ?]%andb_prop ?]. }
    change (":" +:+ join "," tokens) with (String ":" (join "," tokens)).
    assert (Str.free ":" (join "," tokens) = true) as Hjoin by by apply free_join.
    split.
    + rewrite normalizeRule_params.
      * rewrite before_app, after_app by done.
        rewrite before_free by done. by rewrite split_join.
      * rewrite free_app. simpl. by rewrite andb_false_r.
    + rewrite free_app. simpl. rewrite Hbar. simpl. by apply free_join.
  - rewrite andb_true_r. intros [Hbar Hcolon]%andb_prop.
    split; [by apply normalizeRule_plain|done].
Qed.

(** X5.  Parsing is the inverse of writing a chain in the expression syntax:
    for every non-empty chain of rules written as the grammar writes them,
    the text of the chain parses back to the chain. *)
Theorem parse_render (chain : list RuleSpec.t) :
  chain ≠ [] →
  Forall (λ rule, grammatical rule = true) chain →
  parseExpression (render chain) = chain.
Proof.
  intros Hne Hall. unfold parseExpression, render.
  rewrite split_join.
  - induction Hall as [|rule chain Hrule Hchain IH]; [done|].
    simpl. rewrite (proj1 (renderRule_parse rule Hrule)). f_equal.
    destruct chain as [|next chain]; [done|]. by apply IH.
  - by destruct chain.
  - apply Forall_fmap. eapply Forall_impl; [exact Hall|].
    intros rule Hrule. apply (renderRule_parse rule Hrule).
Qed.

Lemma parse_render_witness :
  let chain := [RuleSpec.make "between" (Some ["1"; "10"]); RuleSpec.make "required" None] in
  chain ≠ []
  ∧ Forall (λ rule, grammatical rule = true) chain
  ∧ render chain = "between:1,10|required"
  ∧ parseExpression "between:1,10|required" = chain.
Proof.
  intros chain.
  assert (chain ≠ []) as Hne by discriminate.
  assert (Forall (λ rule, grammatical rule = true) chain) as Hall
    by (repeat constructor).
  split; [exact Hne|]. split; [exact Hall|]. split; [reflexivity|].
  exact (parse_render chain Hne Hall).
Defined.

(** ** Messages *)

(** X7.  [formatErrorMessage] never changes the validator; it returns the
    text that the active locale's formatter, or else the English one, makes
    from the field and the parameters, and throws a [TypeError] exactly when
    neither is callable. *)
Theorem formatErrorMessage_outcome (G : Registries) (field : string) (rule : RuleSpec.t)
  (this : Validator) :
  (formatErrorMessage G field rule this).2 = this
  ∧ (∀ f, formats G (locale this) (RuleSpec.name rule) f →
          (formatErrorMessage G field rule this).1 = Ok (f field (RuleSpec.params rule)))
  ∧ ((∀ f, ¬ formats G (locale this) (RuleSpec.name rule) f) ↔
     (formatErrorMessage G field rule this).1 = Throw TypeError).
Proof.
  pose proof (formatErrorMessage_spec G field rule this) as Hspec.
  destruct (formatterFor G (locale this) (RuleSpec.name rule)) as [g|] eqn:Eg;
    rewrite Hspec; simpl.
  - split; [done|]. split.
    + intros f Hf%formatterFor_formats. congruence.
    + split; [|done]. intros Hnone. destruct (Hnone g). by apply formatterFor_formats.
  - split; [done|]. split.
    + intros f Hf%formatterFor_formats. congruence.
    + split; [done|]. intros _ f Hf%formatterFor_formats. congruence.
Qed.

Lemma formatErrorMessage_outcome_witness :
  let this := setLocale "fr" blank in
  let nosuch := RuleSpec.make "nosuch" None in
  (∀ f, ¬ formats Sample.registries (locale this) "nosuch" f)
  ∧ (formatErrorMessage Sample.registries "age" nosuch this).1 = Throw TypeError.
Proof.
  intros this nosuch.
  assert (∀ f, ¬ formats Sample.registries (locale this) "nosuch" f) as Hnone.
  { intros f Hf%formatterFor_formats. vm_compute in Hf. discriminate. }
  split; [exact Hnone|].
  exact (proj1 (proj2 (proj2 (formatErrorMessage_outcome Sample.registries "age" nosuch this)))
           Hnone).
Defined.

(** X8.  A locale that has no callable message for a rule (because the
    catalog has no such locale, or no such entry, or an entry that is not a
    function) formats that rule as the locale [en] does. *)
Theorem locale_without_message_is_english (G : Registries) (language field : string)
  (rule : RuleSpec.t) (this : Validator) :
  callable (messageAt G language (RuleSpec.name rule)) = None →
  (formatErrorMessage G field rule (setLocale language this)).1
  = (formatErrorMessage G field rule (setLocale "en" this)).1.
Proof.
  intros Hnone. rewrite !formatErrorMessage_spec. simpl.
  unfold formatterFor. unfold messageAt in Hnone. rewrite Hnone.
  by destruct (callable (Messages G !! "en" ≫= (.!! RuleSpec.name rule))).
Qed.

Lemma locale_without_message_is_english_witness :
  let rule := RuleSpec.make "min3" None in
  callable (messageAt Sample.registries "fr" "min3") = None
  ∧ callable (messageAt Sample.registries "de" "min3") = None
  ∧ (formatErrorMessage Sample.registries "age" rule (setLocale "fr" blank)).1
    = Ok "The age is too short."
  ∧ (formatErrorMessage Sample.registries "age" rule (setLocale "de" blank)).1
    = Ok "The age is too short.".
Proof.
  intros rule.
  assert (callable (messageAt Sample.registries "fr" "min3") = None) as Hfr by reflexivity.
  assert (callable (messageAt Sample.registries "de" "min3") = None) as Hde by reflexivity.
  split; [exact Hfr|]. split; [exact Hde|]. split.
  - rewrite (locale_without_message_is_english Sample.registries "fr" "age" rule
               blank Hfr). reflexivity.
  - rewrite (locale_without_message_is_english Sample.registries "de" "age" rule
               blank Hde). reflexivity.
Defined.

(** ** Passes that end in a throw *)

Section Aborts.

Variable G : Registries.

(** The rules before the one that throws have run, the one that throws has
    thrown, and the rest of the chain is not looked at. *)
Lemma validate_abort (name : string) (value : jsval) (pre post : list RuleSpec.t)
  (bad : RuleSpec.t) (answers : list jsval) (this : Validator) :
  validations this !! name = Some (pre ++ bad :: post) →
  Forall2 (runsSync G (locale this) value) pre answers →
  (∀ that, locale that = locale this → test G name value bad that = (Throw TypeError, that)) →
  (validate G name value this).1 = Throw TypeError
  ∧ ErrorBag.entries name (errorBag (validate G name value this).2)
    = passEntries G (locale this) name pre answers.
Proof.
  intros Hchain Hpre Hbad. rewrite validate_unfold, Hchain.
  set (s := withBag (ErrorBag.remove name) this).
  destruct (forEach_sync G name value pre answers (JBool true) s Hpre)
    as (Hres & Hloc & _ & Hent & _).
  destruct (forEach pre (JBool true) (test G name value) s) as [res s1] eqn:Hrun.
  simpl in Hres, Hloc, Hent. subst res.
  rewrite (forEach_abort (test G name value) bad post TypeError pre (JBool true)
             _ s s1 s1 Hrun (Hbad s1 Hloc)).
  split; [done|]. simpl. rewrite Hent.
  unfold ErrorBag.entries, ErrorBag.remove. simpl. by rewrite lookup_delete_eq.
Qed.

(** X9.  When a chain reaches a rule whose name has no predicate in the
    registry, [validate] throws a [TypeError]; the entries of the rules that
    failed before it stay in the error bag, and the rules after it are not
    run. *)
Theorem validate_stops_at_unregistered (name : string) (value : jsval)
  (pre post : list RuleSpec.t) (bad : RuleSpec.t) (answers : list jsval)
  (this : Validator) :
  validations this !! name = Some (pre ++ bad :: post) →
  Forall2 (runsSync G (locale this) value) pre answers →
  callable (Rules G !! RuleSpec.name bad) = None →
  (validate G name value this).1 = Throw TypeError
  ∧ ErrorBag.entries name (errorBag (validate G name value this).2)
    = passEntries G (locale this) name pre answers.
Proof.
  intros Hchain Hpre Hbad. apply (validate_abort name value pre post bad); try done.
  intros that _. unfold test.
  by destruct (Rules G !! RuleSpec.name bad) as [[p|v]|].
Qed.

(** X10.  When a rule answers falsy and neither the active locale nor [en]
    has a callable message for it, [validate] throws a [TypeError] instead of
    recording the failure: the failing rule leaves no entry, the entries of
    the rules before it stay, and the rules after it are not run. *)
Theorem validate_stops_without_message (name : string) (value : jsval)
  (pre post : list RuleSpec.t) (bad : RuleSpec.t) (answers : list jsval) (v : jsval)
  (this : Validator) :
  validations this !! name = Some (pre ++ bad :: post) →
  Forall2 (runsSync G (locale this) value) pre answers →
  syncAnswer G value bad v →
  truthy v = false →
  formatterFor G (locale this) (RuleSpec.name bad) = None →
  (validate G name value this).1 = Throw TypeError
  ∧ ErrorBag.entries name (errorBag (validate G name value this).2)
    = passEntries G (locale this) name pre answers.
Proof.
  intros Hchain Hpre (p & Hp & Hv & Hsync) Hfalsy Hnone.
  apply (validate_abort name value pre post bad); try done.
  intros that Hloc. unfold test. rewrite Hp, Hv.
  assert ((recordError G name bad >> ret v) that = (Throw TypeError, that)) as Hrec.
  { unfold bind. by rewrite recordError_spec, Hloc, Hnone. }
  destruct v as [| |b|n|t|q]; simpl in Hfalsy |- *; try done;
    [subst b; exact Hrec | rewrite Hfalsy; exact Hrec | rewrite Hfalsy; exact Hrec].
Qed.

(** [validate] leaves the entries of every other field as they were. *)
Lemma validate_other_fields (name : string) (value : jsval) (this : Validator) :
  delete name (errorBag (validate G name value this).2) = delete name (errorBag this).
Proof.
  rewrite validate_unfold.
  assert (delete name (errorBag (withBag (ErrorBag.remove name) this))
          = delete name (errorBag this)) as Hstart by apply delete_delete_eq.
  destruct (validations this !! name) as [rules|]; [|done].
  apply (forEach_invariant
           (λ that, delete name (errorBag that) = delete name (errorBag this)));
    [|done].
  intros rule that Hthat. unfold test.
  assert (delete name (errorBag (recordError G name rule that).2)
          = delete name (errorBag this)) as Hrec.
  { rewrite recordError_spec.
    destruct (formatterFor G (locale that) (RuleSpec.name rule)); [|done].
    simpl. unfold ErrorBag.add. by rewrite delete_insert_eq. }
  destruct (Rules G !! RuleSpec.name rule) as [[p|v]|]; try done.
  unfold bind.
  destruct (p value (RuleSpec.params rule)) as [| |[]|n|t|q]; simpl; try done;
    try (destruct (recordError G name rule that) as [[[]|e] that']; done).
  - destruct (negb (n =? 0)); simpl; [done|].
    by destruct (recordError G name rule that) as [[[]|e] that'].
  - destruct (negb (String.eqb t "")); simpl; [done|].
    by destruct (recordError G name rule that) as [[[]|e] that'].
Qed.

Lemma validate_other_field (name other : string) (value : jsval) (this : Validator) :
  other ≠ name →
  errorBag (validate G name value this).2 !! other = errorBag this !! other.
Proof.
  intros Hne.
  rewrite <- (lookup_delete_ne (errorBag (validate G name value this).2) name other)
    by done.
  rewrite validate_other_fields. by apply lookup_delete_ne.
Qed.

Lemma validateAll_setup (values : list (string * jsval)) :
  ∀ (acc : jsval) (s this : Validator),
  sameSetup s this →
  sameSetup (forEach values acc (λ '(property, value), validate G property value) s).2 this.
Proof.
  intros acc s this Hs.
  apply (forEach_invariant (λ that, sameSetup that this)); [|done].
  intros [k v] that [Hl Hv]. change (sameSetup (validate G k v that).2 this).
  destruct (validate_setup G k v that) as [Hl' Hv']. split; congruence.
Qed.

(** X12.  Whatever the chain does (pass, fail, answer with promises, throw),
    [validate] touches the entries of its own field only, and neither it nor
    [validateAll] changes the locale or any chain. *)
Theorem validate_touches_one_field (name : string) (value : jsval)
  (values : list (string * jsval)) (this : Validator) :
  delete name (errorBag (validate G name value this).2) = delete name (errorBag this)
  ∧ sameSetup (validate G name value this).2 this
  ∧ sameSetup (validateAll G values this).2 this.
Proof.
  split; [apply validate_other_fields|]. split; [apply validate_setup|].
  rewrite validateAll_unfold. by apply validateAll_setup.
Qed.

(** X13.  After [validateAll], whatever the chains did, only fields among
    the given keys can have entries: what the bag held for any other field
    is gone. *)
Theorem validateAll_entries_only_for_keys (values : list (string * jsval))
  (other : string) (this : Validator) :
  other ∉ values.*1 →
  errorBag (validateAll G values this).2 !! other = None.
Proof.
  intros Hother. rewrite validateAll_unfold.
  apply (forEach_invariant_in (λ that, errorBag that !! other = None)); [|done].
  intros [k v] that Hin Hthat.
  change (errorBag (validate G k v that).2 !! other = None).
  rewrite validate_other_field; [done|].
  intros ->. apply Hother. apply list_elem_of_fmap. by exists (k, v).
Qed.

Lemma Forall2_answers (loc : string) (value : jsval) (rules : list RuleSpec.t) :
  Forall (λ rule, runsSync G loc value rule (answerOf G value rule)) rules →
  Forall2 (runsSync G loc value) rules (map (answerOf G value) rules).
Proof. induction 1; constructor; done. Qed.

Lemma failures_none (answers : list jsval) :
  failures answers = 0%nat ↔ Forall (λ v, truthy v = true) answers.
Proof.
  unfold failures. induction answers as [|v answers IH]; [done|].
  destruct (truthy v) eqn:E.
  - rewrite filter_cons_False by (rewrite E; done). rewrite IH.
    split; [by constructor|]. by intros [_ ?]%Forall_cons.
  - rewrite filter_cons_True by done. simpl.
    split; [done|]. intros [H _]%Forall_cons. congruence.
Qed.

(** X14.  After [validate] has run a chain of synchronous rules, the field
    has one entry for each rule that answered falsy, so it has none exactly
    when every rule of the chain passed, whatever [validate] returned. *)
Theorem validate_entries_count (name : string) (value : jsval)
  (rules : list RuleSpec.t) (answers : list jsval) (this : Validator) :
  validations this !! name = Some rules →
  Forall2 (runsSync G (locale this) value) rules answers →
  length (ErrorBag.entries name (errorBag (validate G name value this).2))
  = failures answers
  ∧ (ErrorBag.entries name (errorBag (validate G name value this).2) = []
     ↔ Forall (λ v, truthy v = true) answers).
Proof.
  intros Hchain Hall.
  destruct (validate_sync G name value rules answers this Hchain Hall)
    as (_ & _ & _ & -> & _).
  pose proof (passEntries_length G (locale this) name value rules answers Hall) as Hlen.
  split; [done|]. rewrite <- failures_none, <- Hlen. split.
  - by intros ->.
  - by intros ?%nil_length_inv.
Qed.

(** A run of [validateAll]'s loop over distinct fields with synchronous
    chains, from any validator with the given locale and chains. *)
Lemma validateAll_loop (this : Validator) (values : list (string * jsval)) :
  ∀ (acc : jsval) (s : Validator),
  sameSetup s this →
  NoDup values.*1 →
  (∀ property value, (property, value) ∈ values →
     ∃ rules, validations this !! property = Some rules
              ∧ Forall (λ rule, runsSync G (locale this) value rule (answerOf G value rule))
                  rules) →
  let out := forEach values acc (λ '(property, value), validate G property value) s in
  (∃ r, out.1 = Ok r)
  ∧ (∀ property value rules, (property, value) ∈ values →
       validations this !! property = Some rules →
       ErrorBag.entries property (errorBag out.2)
       = passEntries G (locale this) property rules (map (answerOf G value) rules))
  ∧ (∀ other, other ∉ values.*1 → errorBag out.2 !! other = errorBag s !! other).
Proof.
  induction values as [|[k v] values IH]; intros acc s Hs Hdup Hsync out.
  - subst out. simpl. split; [by eexists|]. split; [|done].
    intros property value rules Hin. by apply elem_of_nil in Hin.
  - apply NoDup_cons in Hdup as [Hfresh Hdup].
    destruct Hs as [Hloc Hval].
    destruct (Hsync k v ltac:(left)) as (rules & Hrules & Hall).
    apply Forall2_answers in Hall. rewrite <- Hloc in Hall. rewrite <- Hval in Hrules.
    destruct (validate_sync G k v rules _ s Hrules Hall)
      as (Hres & Hloc1 & Hval1 & Hent & Hothers).
    subst out. simpl forEach. unfold bind.
    destruct (validate G k v s) as [res s1]. simpl in Hres, Hloc1, Hval1, Hent, Hothers.
    subst res.
    destruct (IH (List.last (map (answerOf G v) rules) (JBool true)) s1) as (Hok & Hin & Hout).
    { split; congruence. }
    { done. }
    { intros property value Hmem. apply Hsync. by right. }
    split; [done|]. split.
    + intros property value rules' [[= -> ->]|Hmem]%elem_of_cons Hchain.
      * unfold ErrorBag.entries in *. rewrite (Hout k Hfresh), Hent.
        rewrite Hval in Hrules. rewrite Hloc.
        assert (rules = rules') as -> by congruence. done.
      * by apply Hin.
    + intros other [Hne Hother]%not_elem_of_cons. simpl in Hne.
      rewrite (Hout other Hother). by apply Hothers.
Qed.

(** X15.  For a mapping with distinct keys whose fields all have chains of
    synchronous rules, [validateAll] returns normally and leaves, for every
    field of the mapping, exactly the entries of that field's failing rules:
    a failure of an earlier field is in the bag even when the returned value
    is the last field's [true]. *)
Theorem validateAll_records_every_field (values : list (string * jsval)) (this : Validator) :
  NoDup values.*1 →
  (∀ property value, (property, value) ∈ values →
     ∃ rules, validations this !! property = Some rules
              ∧ Forall (λ rule, runsSync G (locale this) value rule (answerOf G value rule))
                  rules) →
  (∃ r, (validateAll G values this).1 = Ok r)
  ∧ (∀ property value rules, (property, value) ∈ values →
       validations this !! property = Some rules →
       ErrorBag.entries property (errorBag (validateAll G values this).2)
       = passEntries G (locale this) property rules (map (answerOf G value) rules)).
Proof.
  intros Hdup Hsync. rewrite validateAll_unfold.
  destruct (validateAll_loop this values (JBool true) (withBag ErrorBag.clear this))
    as (Hok & Hin & _); done.
Qed.

(** X11.  [validateAll] stops at the first key that has no chain: it throws a
    [TypeError], and the validator is left as the keys before that one left
    it, less the entries of the key itself.  The keys after it are not
    validated: the outcome is the same whatever they are, and no key outside
    those before it has an entry. *)
Theorem validateAll_stops_at_unattached (before after : list (string * jsval))
  (property : string) (value r : jsval) (this : Validator) :
  validations this !! property = None →
  (validateAll G before this).1 = Ok r →
  let stopped := validateAll G (before ++ (property, value) :: after) this in
  stopped = (Throw TypeError,
             withBag (ErrorBag.remove property) (validateAll G before this).2)
  ∧ ∀ key, key ∉ before.*1 → errorBag stopped.2 !! key = None.
Proof.
  intros Hnone Hbefore stopped.
  assert (stopped = (Throw TypeError,
                     withBag (ErrorBag.remove property) (validateAll G before this).2))
    as Hstopped.
  { subst stopped. rewrite !validateAll_unfold. rewrite validateAll_unfold in Hbefore.
    set (s := withBag ErrorBag.clear this) in *.
    set (body := λ '(property, value), validate G property value) in *.
    assert (sameSetup (forEach before (JBool true) body s).2 this) as [_ Hval].
    { apply (forEach_invariant (λ that, sameSetup that this)); [|done].
      intros [k v] that [Hl Hv]. change (sameSetup (validate G k v that).2 this).
      destruct (validate_setup G k v that) as [Hl' Hv']. split; congruence. }
    destruct (forEach before (JBool true) body s) as [res s1] eqn:Hrun.
    simpl in Hbefore, Hval. subst res.
    assert (body (property, value) s1
            = (Throw TypeError, withBag (ErrorBag.remove property) s1)) as Hbad.
    { unfold body. by rewrite validate_unfold, Hval, Hnone. }
    rewrite (forEach_abort body (property, value) after TypeError before (JBool true)
               r s s1 _ Hrun Hbad).
    reflexivity. }
  split; [exact Hstopped|].
  intros key Hkey. rewrite Hstopped. simpl. unfold ErrorBag.remove.
  destruct (decide (key = property)) as [->|Hne]; [apply lookup_delete_eq|].
  rewrite lookup_delete_ne by done.
  rewrite validateAll_unfold.
  apply (forEach_invariant_in (λ that, errorBag that !! key = None)); [|done].
  intros [k v] that Hin Hthat.
  change (errorBag (validate G k v that).2 !! key = None).
  rewrite validate_other_field; [done|].
  intros ->. apply Hkey. apply list_elem_of_fmap. by exists (k, v).
Qed.

End Aborts.

Lemma validateAll_entries_only_for_keys_witness :
  let fresh := attach "b" "required" (attach "a" "required" blank) in
  let this := (validate Sample.registries "b" (JStr "") fresh).2 in
  ("b" ∉ [("a", JStr "")].*1)
  ∧ errorBag this !! "b" = Some [ErrorBag.make "b" "The b is required."]
  ∧ errorBag (validateAll Sample.registries [("a", JStr "")] this).2 !! "b" = None.
Proof.
  intros fresh this.
  assert ("b" ∉ [("a", JStr "")].*1) as Hother by by apply (bool_decide_unpack _).
  split; [exact Hother|]. split; [reflexivity|].
  exact (validateAll_entries_only_for_keys Sample.registries [("a", JStr "")] "b" this Hother).
Defined.

Lemma validate_entries_count_witness :
  let this := attach "name" "min3|required" blank in
  let rules := [RuleSpec.make "min3" None; RuleSpec.make "required" None] in
  validations this !! "name" = Some rules
  ∧ Forall2 (runsSync Sample.registries (locale this) (JStr "")) rules
      [JBool false; JBool false]
  ∧ length (ErrorBag.entries "name"
              (errorBag (validate Sample.registries "name" (JStr "") this).2)) = 2%nat.
Proof.
  intros this rules.
  assert (validations this !! "name" = Some rules) as Hchain by reflexivity.
  assert (Forall2 (runsSync Sample.registries (locale this) (JStr "")) rules
            [JBool false; JBool false]) as Hall.
  { constructor; [sample_run Sample.min3|].
    constructor; [sample_run Sample.required|]. constructor. }
  split; [exact Hchain|]. split; [exact Hall|].
  exact (proj1 (validate_entries_count Sample.registries "name" (JStr "") rules
                  [JBool false; JBool false] this Hchain Hall)).
Defined.

Lemma validateAll_records_every_field_witness :
  let this := attach "b" "required" (attach "a" "required" blank) in
  let values := [("a", JStr ""); ("b", JStr "2")] in
  NoDup values.*1
  ∧ (∀ property value, (property, value) ∈ values →
       ∃ rules, validations this !! property = Some rules
                ∧ Forall (λ rule, runsSync Sample.registries (locale this) value rule
                                    (answerOf Sample.registries value rule)) rules)
  ∧ (validateAll Sample.registries values this).1 = Ok (JBool true)
  ∧ ErrorBag.entries "a" (errorBag (validateAll Sample.registries values this).2)
    = [ErrorBag.make "a" "The a is required."].
Proof.
  intros this values.
  assert (NoDup values.*1) as Hdup by by apply (bool_decide_unpack _).
  assert (∀ property value, (property, value) ∈ values →
            ∃ rules, validations this !! property = Some rules
                     ∧ Forall (λ rule, runsSync Sample.registries (locale this) value rule
                                         (answerOf Sample.registries value rule)) rules)
    as Hsync.
  { intros property value Hin.
    apply elem_of_cons in Hin as [Hin|Hin];
      [|apply list_elem_of_singleton in Hin]; injection Hin as -> ->;
      exists [RuleSpec.make "required" None]; (split; [reflexivity|]);
      (constructor; [sample_run Sample.required|constructor]). }
  split; [exact Hdup|]. split; [exact Hsync|]. split; [reflexivity|].
  exact (proj2 (validateAll_records_every_field Sample.registries values this Hdup Hsync)
           "a" (JStr "") [RuleSpec.make "required" None] ltac:(left) eq_refl).
Defined.

Lemma validate_stops_at_unregistered_witness :
  let this := attach "name" "min3|nosuch|required" blank in
  let min3 := RuleSpec.make "min3" None in
  let nosuch := RuleSpec.make "nosuch" None in
  let required := RuleSpec.make "required" None in
  validations this !! "name" = Some ([min3] ++ nosuch :: [required])
  ∧ Forall2 (runsSync Sample.registries (locale this) (JStr "ab")) [min3] [JBool false]
  ∧ callable (Rules Sample.registries !! "nosuch") = None
  ∧ (validate Sample.registries "name" (JStr "ab") this).1 = Throw TypeError
  ∧ ErrorBag.entries "name" (errorBag (validate Sample.registries "name" (JStr "ab") this).2)
    = [ErrorBag.make "name" "The name is too short."].
Proof.
  intros this min3 nosuch required.
  assert (validations this !! "name" = Some ([min3] ++ nosuch :: [required])) as Hchain
    by reflexivity.
  assert (Forall2 (runsSync Sample.registries (locale this) (JStr "ab")) [min3] [JBool false])
    as Hpre.
  { constructor; [sample_run Sample.min3|constructor]. }
  assert (callable (Rules Sample.registries !! "nosuch") = None) as Hbad by reflexivity.
  do 3 (split; [assumption|]).
  exact (validate_stops_at_unregistered Sample.registries "name" (JStr "ab")
           [min3] [required] nosuch [JBool false] this Hchain Hpre Hbad).
Defined.

Lemma validate_stops_without_message_witness :
  let this := attach "name" "min3|silent|required" blank in
  let min3 := RuleSpec.make "min3" None in
  let silent := RuleSpec.make "silent" None in
  let required := RuleSpec.make "required" None in
  validations this !! "name" = Some ([min3] ++ silent :: [required])
  ∧ Forall2 (runsSync Demo.registries (locale this) (JStr "ab")) [min3] [JBool false]
  ∧ syncAnswer Demo.registries (JStr "ab") silent (JBool false)
  ∧ truthy (JBool false) = false
  ∧ formatterFor Demo.registries (locale this) "silent" = None
  ∧ (validate Demo.registries "name" (JStr "ab") this).1 = Throw TypeError
  ∧ ErrorBag.entries "name" (errorBag (validate Demo.registries "name" (JStr "ab") this).2)
    = [ErrorBag.make "name" "The name is too short."].
Proof.
  intros this min3 silent required.
  assert (validations this !! "name" = Some ([min3] ++ silent :: [required])) as Hchain
    by reflexivity.
  assert (Forall2 (runsSync Demo.registries (locale this) (JStr "ab")) [min3] [JBool false])
    as Hpre.
  { constructor; [sample_run Sample.min3|constructor]. }
  assert (syncAnswer Demo.registries (JStr "ab") silent (JBool false)) as Hbad
    by sample_answer Demo.silent.
  assert (formatterFor Demo.registries (locale this) "silent" = None) as Hnone by reflexivity.
  split; [exact Hchain|]. split; [exact Hpre|]. split; [exact Hbad|].
  split; [reflexivity|]. split; [exact Hnone|].
  exact (validate_stops_without_message Demo.registries "name" (JStr "ab")
           [min3] [required] silent [JBool false] (JBool false) this
           Hchain Hpre Hbad eq_refl Hnone).
Defined.

Lemma validateAll_stops_at_unattached_witness :
  let this := attach "city" "required" (attach "name" "required" blank) in
  let stopped :=
    validateAll Sample.registries
      ([("name", JStr "")] ++ ("zip", JStr "1") :: [("city", JStr "")]) this in
  validations this !! "zip" = None
  ∧ (validateAll Sample.registries [("name", JStr "")] this).1 = Ok (JBool false)
  ∧ ("city" ∉ [("name", JStr "")].*1)
  ∧ stopped = (Throw TypeError,
               withBag (ErrorBag.remove "zip")
                 (validateAll Sample.registries [("name", JStr "")] this).2)
  ∧ errorBag stopped.2 !! "city" = None
  ∧ ErrorBag.entries "name" (errorBag stopped.2)
    = [ErrorBag.make "name" "The name is required."].
Proof.
  intros this stopped.
  assert (validations this !! "zip" = None) as Hnone by reflexivity.
  assert ((validateAll Sample.registries [("name", JStr "")] this).1 = Ok (JBool false))
    as Hbefore by reflexivity.
  assert ("city" ∉ [("name", JStr "")].*1) as Hcity.
  { simpl. intros Hin. apply list_elem_of_singleton in Hin. discriminate. }
  split; [exact Hnone|]. split; [exact Hbefore|]. split; [exact Hcity|].
  destruct (validateAll_stops_at_unattached Sample.registries [("name", JStr "")]
              [("city", JStr "")] "zip" (JStr "1") (JBool false) this Hnone Hbefore)
    as [Hstopped Hkeys].
  split; [exact Hstopped|]. split; [exact (Hkeys "city" Hcity)|].
  reflexivity.
Defined.


(** ** Callbacks that run after later passes *)





(** ** Extending the registries *)

(** [test] on a rule whose predicate answers synchronously. *)
Lemma test_answer (G : Registries) (name : string) (value : jsval) (rule : RuleSpec.t)
  (p : predicate) (v : jsval) (this : Validator) :
  Rules G !! RuleSpec.name rule = Some (Fn p) →
  p value (RuleSpec.params rule) = v →
  (∀ q, v ≠ JPromise q) →
  test G name value rule this =
    if truthy v then (Ok v, this)
    else match formatterFor G (locale this) (RuleSpec.name rule) with
         | Some f => (Ok v, withBag (ErrorBag.add name (f name (RuleSpec.params rule))) this)
         | None => (Throw TypeError, this)
         end.
Proof.
  intros Hp Hv Hsync. unfold test. rewrite Hp, Hv.
  destruct v as [| |b|n|t|q]; simpl; unfold bind; rewrite ?recordError_spec.
  - by destruct (formatterFor G (locale this) (RuleSpec.name rule)).
  - by destruct (formatterFor G (locale this) (RuleSpec.name rule)).
  - destruct b; simpl; [done|]. rewrite recordError_spec.
    by destruct (formatterFor G (locale this) (RuleSpec.name rule)).
  - destruct (negb (n =? 0)); simpl; [done|]. rewrite recordError_spec.
    by destruct (formatterFor G (locale this) (RuleSpec.name rule)).
  - destruct (negb (String.eqb t "")); simpl; [done|]. rewrite recordError_spec.
    by destruct (formatterFor G (locale this) (RuleSpec.name rule)).
  - by destruct (Hsync q).
Qed.

Lemma guardExtend_function (name : string) (f : predicate) (R : Registries) :
  Rules R !! name = None → guardExtend name (Ext.Function f) R = (Ok tt, R).
Proof. intros H. unfold guardExtend, bind, read. simpl. by rewrite H. Qed.

(** X17.  Extending with a bare function under a free name registers the
    function and the English message "The {field} value is not valid.": from
    then on [test] calls the function with the value and the parameters,
    returns its answer, and under the locale [en] records that message when
    the answer is falsy. *)
Theorem extend_registers_function (name : string) (f : predicate) (R : Registries)
  (en : gmap string (member formatter)) :
  Rules R !! name = None →
  Messages R !! "en" = Some en →
  (extend name (Ext.Function f) R).1 = Ok tt
  ∧ Rules (extend name (Ext.Function f) R).2 !! name = Some (Fn f)
  ∧ ∀ (this : Validator) (field : string) (value : jsval) (tokens : option (list string)),
      locale this = "en" →
      (∀ q, f value tokens ≠ JPromise q) →
      test (extend name (Ext.Function f) R).2 field value (RuleSpec.make name tokens) this
      = (Ok (f value tokens),
         if truthy (f value tokens) then this
         else withBag (ErrorBag.add field ("The " +:+ field +:+ " value is not valid.")) this).
Proof.
  intros Hfree Hen.
  assert (extend name (Ext.Function f) R
          = (Ok tt, {| Rules := <[name := Fn f]> (Rules R);
                       Messages := <["en" := <[name := Fn (λ field _,
                                      "The " +:+ field +:+ " value is not valid.")]> en]>
                                   (Messages R) |})) as ->.
  { unfold extend, bind. rewrite guardExtend_function by done.
    unfold merge, bind, update, setMessage. simpl. by rewrite Hen. }
  simpl. split; [done|]. split; [apply lookup_insert_eq|].
  intros this field value tokens Hloc Hsync.
  erewrite test_answer; [|simpl; apply lookup_insert_eq|reflexivity|exact Hsync].
  cbn [RuleSpec.name RuleSpec.params].
  destruct (truthy (f value tokens)); [done|].
  unfold formatterFor. rewrite Hloc. simpl.
  rewrite !lookup_insert_eq. simpl. by rewrite !lookup_insert_eq.
Qed.

Lemma extend_registers_function_witness :
  let even : predicate := λ value _, match value with
                                     | JNum n => JBool (Z.even n)
                                     | _ => JBool false
                                     end in
  let this := attach "age" "even" blank in
  Rules Sample.registries !! "even" = None
  ∧ Messages Sample.registries !! "en" = Some Sample.en
  ∧ locale this = "en"
  ∧ (∀ q, even (JNum 3) None ≠ JPromise q)
  ∧ test (extend "even" (Ext.Function even) Sample.registries).2 "age" (JNum 3)
      (RuleSpec.make "even" None) this
    = (Ok (JBool false),
       withBag (ErrorBag.add "age" "The age value is not valid.") this).
Proof.
  intros even this.
  assert (Rules Sample.registries !! "even" = None) as Hfree by reflexivity.
  assert (Messages Sample.registries !! "en" = Some Sample.en) as Hen by reflexivity.
  assert (∀ q, even (JNum 3) None ≠ JPromise q) as Hsync by (intros q; discriminate).
  split; [exact Hfree|]. split; [exact Hen|]. split; [reflexivity|]. split; [exact Hsync|].
  exact (proj2 (proj2 (extend_registers_function "even" even Sample.registries Sample.en
                         Hfree Hen))
           this "age" (JNum 3) None eq_refl Hsync).
Defined.












(** ** Updating the dictionary *)

Lemma setMessage_present (loc n : string) (m : member formatter) (R : Registries)
  (sub : gmap string (member formatter)) :
  Messages R !! loc = Some sub →
  setMessage loc n m R
  = (Ok tt, {| Rules := Rules R; Messages := <[loc := <[n := m]> sub]> (Messages R) |}).
Proof. intros H. unfold setMessage. by rewrite H. Qed.

(** The inner loop of [updateDictionary] on a locale that has a
    sub-mapping. *)
Lemma dictionary_entries (loc : string) (entries : list (string * member formatter)) :
  ∀ R, is_Some (Messages R !! loc) →
  (forEach_ entries (λ '(n, m), setMessage loc n m) R).1 = Ok tt
  ∧ Rules (forEach_ entries (λ '(n, m), setMessage loc n m) R).2 = Rules R
  ∧ is_Some (Messages (forEach_ entries (λ '(n, m), setMessage loc n m) R).2 !! loc)
  ∧ (∀ l, l ≠ loc →
       Messages (forEach_ entries (λ '(n, m), setMessage loc n m) R).2 !! l
       = Messages R !! l)
  ∧ (∀ n, n ∉ entries.*1 →
       messageAt (forEach_ entries (λ '(n, m), setMessage loc n m) R).2 loc n
       = messageAt R loc n)
  ∧ (NoDup entries.*1 → ∀ n m, (n, m) ∈ entries →
       messageAt (forEach_ entries (λ '(n, m), setMessage loc n m) R).2 loc n = Some m).
Proof.
  induction entries as [|[n0 m0] entries IH]; intros R [sub Hsub].
  - simpl. repeat split; try done; try by eexists.
    intros _ n m Hin. by apply elem_of_nil in Hin.
  - unfold forEach_ in *. simpl forEach. unfold bind.
    rewrite (setMessage_present loc n0 m0 R sub Hsub).
    set (R1 := {| Rules := Rules R;
                  Messages := <[loc := <[n0 := m0]> sub]> (Messages R) |}).
    assert (Messages R1 !! loc = Some (<[n0 := m0]> sub)) as H1 by apply lookup_insert_eq.
    destruct (IH R1 ltac:(by eexists)) as (Hok & Hrules & Hsome & Hother & Hkeep & Hset).
    split; [done|]. split; [done|]. split; [done|]. split; [|split].
    + intros l Hl. rewrite (Hother l Hl). simpl. by rewrite lookup_insert_ne.
    + intros n [Hn Hrest]%not_elem_of_cons. simpl in Hn. rewrite (Hkeep n Hrest).
      unfold messageAt. rewrite H1, Hsub. simpl. by rewrite lookup_insert_ne.
    + intros [Hfresh Hdup]%NoDup_cons n m [[= -> ->]|Hin]%elem_of_cons.
      * rewrite (Hkeep n0 Hfresh). unfold messageAt. rewrite H1. simpl.
        apply lookup_insert_eq.
      * by apply Hset.
Qed.

Lemma ensureLocale_spec (loc : string) (R : Registries) :
  (ensureLocale loc R).1 = Ok tt
  ∧ Rules (ensureLocale loc R).2 = Rules R
  ∧ is_Some (Messages (ensureLocale loc R).2 !! loc)
  ∧ (∀ l, l ≠ loc → Messages (ensureLocale loc R).2 !! l = Messages R !! l)
  ∧ (∀ l n, messageAt (ensureLocale loc R).2 l n = messageAt R l n).
Proof.
  unfold ensureLocale, messageAt.
  destruct (Messages R !! loc) as [sub|] eqn:Esub; simpl.
  - repeat split; try done; by eexists.
  - repeat split; try done.
    + rewrite lookup_insert_eq. by eexists.
    + intros l Hl. by rewrite lookup_insert_ne.
    + intros l n. destruct (decide (l = loc)) as [->|Hl].
      * by rewrite lookup_insert_eq, Esub.
      * by rewrite lookup_insert_ne.
Qed.

Lemma updateDictionary_cons (loc0 : string) (entries0 : list (string * member formatter))
  (messages : list (string * list (string * member formatter))) (R R0 R1 : Registries) :
  ensureLocale loc0 R = (Ok tt, R0) →
  forEach_ entries0 (λ '(n, m), setMessage loc0 n m) R0 = (Ok tt, R1) →
  updateDictionary ((loc0, entries0) :: messages) R = updateDictionary messages R1.
Proof.
  intros H0 H1. unfold updateDictionary, forEach_ in *. simpl forEach.
  unfold bind. by rewrite H0, H1.
Qed.

(** [updateDictionary], one locale after the other. *)
Lemma dictionary_locales (messages : list (string * list (string * member formatter))) :
  ∀ R,
  (updateDictionary messages R).1 = Ok tt
  ∧ Rules (updateDictionary messages R).2 = Rules R
  ∧ (∀ l, is_Some (Messages R !! l) → is_Some (Messages (updateDictionary messages R).2 !! l))
  ∧ (∀ l, l ∉ messages.*1 → Messages (updateDictionary messages R).2 !! l = Messages R !! l)
  ∧ (∀ l n, (∀ entries, (l, entries) ∈ messages → n ∉ entries.*1) →
       messageAt (updateDictionary messages R).2 l n = messageAt R l n)
  ∧ (NoDup messages.*1 → ∀ l entries n m,
       (l, entries) ∈ messages → NoDup entries.*1 → (n, m) ∈ entries →
       messageAt (updateDictionary messages R).2 l n = Some m).
Proof.
  induction messages as [|[loc0 entries0] messages IH]; intros R.
  - simpl. repeat split; try done.
    intros _ l entries n m Hin. by apply elem_of_nil in Hin.
  - destruct (ensureLocale_spec loc0 R) as (Hok0 & Hr0 & Hs0 & Ho0 & Hm0).
    destruct (ensureLocale loc0 R) as [res0 R0] eqn:E0. simpl in Hok0, Hr0, Hs0, Ho0, Hm0.
    subst res0.
    destruct (dictionary_entries loc0 entries0 R0 Hs0)
      as (Hok1 & Hr1 & Hs1 & Ho1 & Hk1 & Hset1).
    destruct (forEach_ entries0 (λ '(n, m), setMessage loc0 n m) R0) as [res1 R1] eqn:E1.
    simpl in Hok1, Hr1, Hs1, Ho1, Hk1, Hset1. subst res1.
    rewrite (updateDictionary_cons loc0 entries0 messages R R0 R1 E0 E1).
    destruct (IH R1) as (Hok & Hrules & Hgrow & Hother & Hkeep & Hset).
    split; [done|]. split; [etrans; [exact Hrules|]; by rewrite Hr1|].
    assert (∀ l, is_Some (Messages R !! l) → is_Some (Messages R1 !! l)) as Hgrow1.
    { intros l Hl. destruct (decide (l = loc0)) as [->|Hne]; [done|].
      by rewrite (Ho1 l Hne), (Ho0 l Hne). }
    split; [|split; [|split]].
    + intros l Hl. by apply Hgrow, Hgrow1.
    + intros l [Hne Hl]%not_elem_of_cons. simpl in Hne.
      by rewrite (Hother l Hl), (Ho1 l Hne), (Ho0 l Hne).
    + intros l n Hn. rewrite Hkeep by (intros entries Hin; apply Hn; by right).
      rewrite <- Hm0. destruct (decide (l = loc0)) as [->|Hne].
      * apply Hk1. apply Hn. by left.
      * unfold messageAt. by rewrite (Ho1 l Hne).
    + intros [Hfresh Hdup]%NoDup_cons l entries n m [[= -> ->]|Hin]%elem_of_cons Hd Hnm.
      * unfold messageAt. rewrite (Hother loc0 Hfresh). by apply Hset1.
      * by eapply Hset.
Qed.



(** X21.  After [updateDictionary] on a dictionary with distinct locales and,
    per locale, distinct rule names, every message of the dictionary is the
    catalog's message for its locale and rule, whether the locale or the
    message existed before or not. *)
Theorem updateDictionary_installs
  (messages : list (string * list (string * member formatter))) (R : Registries)
  (l n : string) (entries : list (string * member formatter)) (m : member formatter) :
  NoDup messages.*1 →
  (l, entries) ∈ messages →
  NoDup entries.*1 →
  (n, m) ∈ entries →
  messageAt (updateDictionary messages R).2 l n = Some m.
Proof.
  intros Hdup Hin Hd Hnm.
  destruct (dictionary_locales messages R) as (_ & _ & _ & _ & _ & Hset). by eapply Hset.
Qed.

Lemma updateDictionary_installs_witness :
  let short : formatter := λ field _, field +:+ " ist zu kurz." in
  let needed : formatter := λ field _, field +:+ " est requis." in
  let german := [("min3", Fn short)] in
  let french := [("required", Fn needed)] in
  let messages := [("de", german); ("fr", french)] in
  NoDup messages.*1
  ∧ NoDup german.*1
  ∧ Messages Sample.registries !! "de" = None
  ∧ messageAt (updateDictionary messages Sample.registries).2 "de" "min3" = Some (Fn short)
  ∧ formatterFor (updateDictionary messages Sample.registries).2 "fr" "required"
    = Some needed.
Proof.
  intros short needed german french messages.
  assert (NoDup messages.*1) as Hdup by by apply (bool_decide_unpack _).
  assert (NoDup german.*1) as Hde by by apply (bool_decide_unpack _).
  assert (NoDup french.*1) as Hfr by by apply (bool_decide_unpack _).
  split; [exact Hdup|]. split; [exact Hde|]. split; [reflexivity|]. split.
  - exact (updateDictionary_installs messages Sample.registries "de" "min3" german
             (Fn short) Hdup ltac:(left) Hde ltac:(left)).
  - unfold formatterFor.
    change (Messages ?G !! "fr" ≫= (.!! "required")) with (messageAt G "fr" "required").
    rewrite (updateDictionary_installs messages Sample.registries "fr" "required" french
               (Fn needed) Hdup ltac:(right; left) Hfr ltac:(left)).
    reflexivity.
Defined.

(** ** The guard, once more *)

Lemma extend_accepted_registers (name : string) (validator : Ext.validator)
  (R R' : Registries) :
  extend name validator R = (Ok tt, R') → ∃ m, Rules R' !! name = Some (Fn m).
Proof.
  intros Hrun.
  pose proof (merge_registers name validator R) as Hreg.
  pose proof (guardExtend_state name validator R) as Hst.
  unfold extend, bind in Hrun.
  destruct (guardExtend name validator R) as [[[]|e] R0] eqn:Hguard; [|done].
  simpl in Hst. subst R0. rewrite Hrun in Hreg. simpl in Hreg.
  destruct validator as [f|o]; [eauto|].
  unfold guardExtend, bind, read in Hguard. simpl in Hguard.
  destruct (match Rules R !! name with Some m => truthyM m | None => false end); [done|].
  destruct (Ext.validate o) as [f|v]; [eauto|].
  simpl in Hguard. by rewrite typeof_not_function in Hguard.
Qed.

(** X22.  A name can be extended once: after an [extend] that went through,
    every further [extend] under that name, whatever it offers, throws the
    "existing validator" exception and leaves the registries as the first
    [extend] left them. *)
Theorem extend_once_per_name (name : string) (validator again : Ext.validator)
  (R : Registries) :
  (extend name validator R).1 = Ok tt →
  extend name again (extend name validator R).2
  = (Throw (ValidatorException
       ("Extension Error: There is an existing validator with the same name '"
          +:+ name +:+ "'.")),
     (extend name validator R).2).
Proof.
  intros Hfirst.
  destruct (extend name validator R) as [res R'] eqn:Hrun. simpl in *. subst res.
  destruct (extend_accepted_registers name validator R R' Hrun) as [m Hm].
  unfold extend, guardExtend, bind, read. simpl. by rewrite Hm.
Qed.

Lemma extend_once_per_name_witness :
  let first := extend "even" (Ext.Function (λ _ _, JBool true)) Sample.registries in
  first.1 = Ok tt
  ∧ (extend "even" (Ext.Function (λ _ _, JBool false)) first.2).1
    = Throw (ValidatorException
        "Extension Error: There is an existing validator with the same name 'even'.")
  ∧ (extend "required" (Ext.Function (λ _ _, JBool false)) Sample.registries).1
    = Throw (ValidatorException
        "Extension Error: There is an existing validator with the same name 'required'.").
Proof.
  intros first.
  assert (first.1 = Ok tt) as Hfirst by reflexivity.
  split; [exact Hfirst|]. split; [|reflexivity].
  exact (f_equal fst
           (extend_once_per_name "even" (Ext.Function (λ _ _, JBool true))
              (Ext.Function (λ _ _, JBool false)) Sample.registries Hfirst)).
Defined.

(** X23.  Under a free name, and when the [messages] property is not [null],
    the guard lets through exactly the functions and the objects that have a
    callable [validate] together with a callable [getMessage] or a
    [messages] object; anything else makes [extend] throw an extension
    exception and write nothing. *)
Theorem guardExtend_wellFormed (name : string) (validator : Ext.validator)
  (R : Registries) :
  Rules R !! name = None →
  (∀ o, validator = Ext.Object o → Ext.messages o ≠ Ext.MsgNull) →
  (guardExtend name validator R = (Ok tt, R) ↔ wellFormed validator = true)
  ∧ (wellFormed validator = false →
     ∃ msg, extend name validator R = (Throw (ValidatorException msg), R)).
Proof.
  intros Hfree Hnull. pose proof (guardExtend_free name validator R Hfree Hnull) as Hguard.
  destruct (wellFormed validator).
  - split; [done|]. discriminate.
  - destruct Hguard as [msg Hmsg]. split.
    + split; [|discriminate]. rewrite Hmsg. discriminate.
    + intros _. exists msg. apply extend_refused. by rewrite Hmsg.
Qed.

Lemma guardExtend_wellFormed_witness :
  let offered := Ext.Object (Ext.mkObject (Val (JStr "not a function"))
                               (Fn (λ field _, field)) Ext.MsgAbsent) in
  Rules Sample.registries !! "even" = None
  ∧ (∀ o, offered = Ext.Object o → Ext.messages o ≠ Ext.MsgNull)
  ∧ wellFormed offered = false
  ∧ ∃ msg, extend "even" offered Sample.registries
           = (Throw (ValidatorException msg), Sample.registries).
Proof.
  intros offered.
  assert (Rules Sample.registries !! "even" = None) as Hfree by reflexivity.
  assert (∀ o, offered = Ext.Object o → Ext.messages o ≠ Ext.MsgNull) as Hnull.
  { intros o Ho. injection Ho as <-. discriminate. }
  split; [exact Hfree|]. split; [exact Hnull|]. split; [reflexivity|].
  exact (proj2 (guardExtend_wellFormed "even" offered Sample.registries Hfree Hnull)
           eq_refl).
Defined.
